(** * The POSIX file-server back end of libuavcan: descriptor cache and
      getInfo/read, embedded from
      [libuavcan_drivers/posix/include/uavcan_posix/basic_file_server_backend.hpp].

    The class [BasicFileSeverBackend] and its nested classes [FDCacheBase],
    [FDCache] and [FDCacheItem] are translated member by member.  Member
    functions become functions in a state monad over a [Machine], which holds
    the operating system behind the POSIX calls, the wall clock read by
    [time(NULL)] and the trace of file calls made so far. *)

From Stdlib Require Import ZArith List String Bool Lia Permutation.
Import ListNotations.
Local Open Scope Z_scope.

Set Implicit Arguments.

(** ** Fixed-width integer conversions *)

Module IntConv.

(** Conversion of a value to a signed integer type of [2^w * 2] values. *)
Definition to_signed (half : Z) (z : Z) : Z := (z + half) mod (2 * half) - half.

Definition to_int16 : Z -> Z := to_signed 32768.
Definition to_int32 : Z -> Z := to_signed 2147483648.
Definition to_uint8  (z : Z) : Z := z mod 256.
Definition to_uint16 (z : Z) : Z := z mod 65536.
Definition to_uint64 (z : Z) : Z := z mod 18446744073709551616.

End IntConv.
Import IntConv.

(** ** Constants of the protocol and of the system headers *)

(** The generated headers [uavcan/protocol/file/Error.hpp] and
    [uavcan/protocol/file/EntryType.hpp] are included by the source but are
    not part of it; the constants the back end uses from them follow. *)
Module Error.

(** Modelled from the spec: the dedicated "invalid argument" status of
    [uavcan::protocol::file::Error], missing with its header; a non-zero
    16-bit value, 22 in the DSDL definition. *)
Definition INVALID_VALUE : Z := 22.

End Error.

Module EntryType.

(** Modelled from the spec: the member FILE of the flag bitmask of
    [uavcan::protocol::file::EntryType], missing with its header; one bit,
    numbered as in the DSDL definition. *)
Definition FLAG_FILE : Z := 1.

(** Modelled from the spec: the member DIRECTORY of the same bitmask. *)
Definition FLAG_DIRECTORY : Z := 2.

(** Modelled from the spec: the member READABLE of the same bitmask. *)
Definition FLAG_READABLE : Z := 8.

End EntryType.

(** [<fcntl.h>] and [<sys/stat.h>]. *)
Definition O_RDONLY : Z := 0.
Definition S_IFMT  : Z := 61440.   (* 0170000 *)
Definition S_IFDIR : Z := 16384.   (* 0040000 *)
Definition S_IFREG : Z := 32768.   (* 0100000 *)
Definition S_ISDIR (mode : Z) : bool := Z.land mode S_IFMT =? S_IFDIR.
Definition S_ISREG (mode : Z) : bool := Z.land mode S_IFMT =? S_IFREG.

(** The two fields of [struct stat] that the back end reads. *)
Record stat_t := mkStat { st_size : Z; st_mode : Z }.

(** ** The operating-system boundary *)

(** The POSIX calls and the allocator are an interface: every call maps the
    state of the world to a result and a new state.  [posix_errno] reads
    [errno].  [heap_new] is [operator new], which reports failure by a null
    pointer as the source tests for it (false: it returned [NULL]);
    [heap_strdup] is [strdup] (false: it returned [NULL]). *)
Class Posix (W : Type) : Type := {
  posix_open   : string -> Z -> W -> Z * W;
  posix_close  : Z -> W -> Z * W;
  posix_lseek  : Z -> Z -> W -> Z * W;
  posix_read   : Z -> Z -> W -> (Z * list Z) * W;
  posix_stat   : string -> W -> (Z * stat_t) * W;
  posix_errno  : W -> Z;
  heap_new     : W -> bool * W;
  heap_strdup  : string -> W -> bool * W
}.

(** File calls as they appear in the trace, with the value they returned. *)
Inductive Event : Type :=
| EvOpen  (path : string) (oflags : Z) (ret : Z)
| EvClose (fd : Z) (ret : Z)
| EvLseek (fd : Z) (offset : Z) (ret : Z)
| EvRead  (fd : Z) (count : Z) (ret : Z)
| EvStat  (path : string) (ret : Z).

(** Descriptors passed to [::close], in call order. *)
Fixpoint closed_fds (t : list Event) : list Z :=
  match t with
  | [] => []
  | EvClose fd _ :: t' => fd :: closed_fds t'
  | _ :: t' => closed_fds t'
  end.

Definition is_close_event (e : Event) : bool :=
  match e with EvClose _ _ => true | _ => false end.

Section Machine.

Context {W : Type} `{Posix W}.

(** [clock] is the value [time(NULL)] returns, a [time_t] taken as signed
    and wide enough for the subtraction in [expired].  It belongs to the
    environment: no call of the back end changes it, and one member call
    runs within one reading of it. *)
Record Machine : Type := mkMachine {
    world : W;
    clock : Z;
    trace : list Event
  }.

Definition M (A : Type) : Type := Machine -> A * Machine.

Definition ret {A} (a : A) : M A := fun m => (a, m).

Definition bind {A B} (c : M A) (k : A -> M B) : M B :=
    fun m => let (a, m') := c m in k a m'.

Definition lift_call {A} (call : W -> A * W) (ev : A -> list Event) : M A :=
    fun m => let (a, w') := call (world m) in
             (a, {| world := w'; clock := clock m; trace := trace m ++ ev a |}).

Definition sys_time : M Z := fun m => (clock m, m).
Definition sys_errno : M Z := fun m => (posix_errno (world m), m).

Definition sys_open (path : string) (oflags : Z) : M Z :=
    lift_call (posix_open path oflags) (fun r => [EvOpen path oflags r]).

Definition sys_close (fd : Z) : M Z :=
    lift_call (posix_close fd) (fun r => [EvClose fd r]).

Definition sys_lseek (fd offset : Z) : M Z :=
    lift_call (posix_lseek fd offset) (fun r => [EvLseek fd offset r]).

Definition sys_read (fd count : Z) : M (Z * list Z) :=
    lift_call (posix_read fd count) (fun r => [EvRead fd count (fst r)]).

Definition sys_stat (path : string) : M (Z * stat_t) :=
    lift_call (posix_stat path) (fun r => [EvStat path (fst r)]).

Definition sys_new : M bool := lift_call heap_new (fun _ => []).
Definition sys_strdup (s : string) : M bool := lift_call (heap_strdup s) (fun _ => []).

End Machine.

Arguments Machine W : clear implicits.
Arguments M W A : clear implicits.

Declare Scope monad_scope.
Delimit Scope monad_scope with monad.
Notation "x <- c ;; k" := (bind c (fun x => k))
  (at level 61, c at next level, right associativity) : monad_scope.
Notation "' pat <- c ;; k" := (bind c (fun x => match x with pat => k end))
  (at level 61, pat pattern, c at next level, right associativity) : monad_scope.
Local Open Scope monad_scope.

(** ** [FDCacheItem] *)

Definition MaxAgeSeconds : Z := 7.
Definition GarbageCollectionSeconds : Z := 60.
Definition InvalidFD : Z := -1.

(** [next_] is the tail of the list the item is linked into.  [path_] is the
    result of [strdup]: [None] is the null pointer. *)
Record FDCacheItem : Type := mkItem {
  last_access_ : Z;
  fd_ : Z;
  oflags_ : Z;
  path_ : option string
}.

Definition set_access (t : Z) (it : FDCacheItem) : FDCacheItem :=
  {| last_access_ := t; fd_ := fd_ it; oflags_ := oflags_ it; path_ := path_ it |}.

Definition valid (it : FDCacheItem) : bool :=
  match path_ it with Some _ => true | None => false end.

Definition getFD (it : FDCacheItem) : Z := fd_ it.
Definition getAccess (it : FDCacheItem) : Z := last_access_ it.

Definition expire (it : FDCacheItem) : FDCacheItem := set_access 0 it.

(** [expired] at the clock reading [now]. *)
Definition expired_at (now : Z) (it : FDCacheItem) : bool :=
  (0 =? last_access_ it) || (now - last_access_ it >? MaxAgeSeconds).

(** [equals(const char*, int)].  Only valid items are ever linked, so the
    comparison against a null [path_] is never reached by the cache. *)
Definition equals (it : FDCacheItem) (path : string) (oflags : Z) : bool :=
  (oflags_ it =? oflags) &&
  match path_ it with Some p => String.eqb path p | None => false end.

(** [equals(int)]. *)
Definition equals_fd (it : FDCacheItem) (fd : Z) : bool := fd_ it =? fd.

(** The identity under which an item is looked up. *)
Definition key (it : FDCacheItem) : option string * Z := (path_ it, oflags_ it).

(** ** [FDCacheBase] and [FDCache] *)

Section Cache.

Context {W : Type} `{Posix W}.

(** [acessed]: stamps the item with [time(NULL)]. *)
Definition acessed (it : FDCacheItem) : M W FDCacheItem :=
  now <- sys_time ;; ret (set_access now it).

(** [expired]: the clock is read only when the item is not already marked. *)
Definition expired (it : FDCacheItem) : M W bool :=
  if 0 =? last_access_ it then ret true
  else now <- sys_time ;; ret (now - last_access_ it >? MaxAgeSeconds).

(** [FDCacheBase::open] and [FDCacheBase::close]: the plain system calls. *)
Definition FDCacheBase_open (path : string) (oflags : Z) : M W Z :=
  sys_open path oflags.

Definition FDCacheBase_close (fd : Z) (done : bool) : M W Z :=
  sys_close fd.

(** [find(const char*, int)]: position and contents of the first item that
    equals the key, walking from [head_]. *)
Fixpoint find (path : string) (oflags : Z) (pi : list FDCacheItem)
  : option (nat * FDCacheItem) :=
  match pi with
  | [] => None
  | it :: next =>
      if equals it path oflags then Some (O, it)
      else match find path oflags next with
           | Some (i, x) => Some (S i, x)
           | None => None
           end
  end.

(** [find(int)]. *)
Fixpoint find_fd (fd : Z) (pi : list FDCacheItem) : option (nat * FDCacheItem) :=
  match pi with
  | [] => None
  | it :: next =>
      if equals_fd it fd then Some (O, it)
      else match find_fd fd next with
           | Some (i, x) => Some (S i, x)
           | None => None
           end
  end.

(** A member call through the item pointer [pi]: the item at that position
    is replaced by the result. *)
Fixpoint at_ptr (pi : nat) (f : FDCacheItem -> FDCacheItem) (l : list FDCacheItem)
  : list FDCacheItem :=
  match l, pi with
  | [], _ => []
  | it :: next, O => f it :: next
  | it :: next, S i => it :: at_ptr i f next
  end.

(** [add]: link at the head, then stamp.  The result is the item as it
    stands in the list (the returned pointer) and the new [head_]. *)
Definition add (it : FDCacheItem) (head : list FDCacheItem)
  : M W (FDCacheItem * list FDCacheItem) :=
  it' <- acessed it ;; ret (it', it' :: head).

(** [removeExpired]: unlink every expired item, closing its descriptor with
    [FDCacheBase::close]; the others stay in place and in order. *)
Fixpoint removeExpired (pi : list FDCacheItem) : M W (list FDCacheItem) :=
  match pi with
  | [] => ret []
  | it :: next =>
      e <- expired it ;;
      if e then _ <- FDCacheBase_close (fd_ it) true ;; removeExpired next
      else rest <- removeExpired next ;; ret (it :: rest)
  end.

(** [remove]. *)
Definition remove (pi : nat) (done : bool) (head : list FDCacheItem)
  : M W (list FDCacheItem) :=
  removeExpired (if done then at_ptr pi expire head else head).

(** [clear]: close every descriptor and free every item. *)
Fixpoint clear (pi : list FDCacheItem) : M W unit :=
  match pi with
  | [] => ret tt
  | it :: next => _ <- FDCacheBase_close (fd_ it) true ;; clear next
  end.

(** [handleTimerEvent]. *)
Definition handleTimerEvent (head : list FDCacheItem) : M W (list FDCacheItem) :=
  removeExpired head.

(** [FDCache::open].  The result is the returned descriptor and the new
    [head_]. *)
Definition FDCache_open (path : string) (oflags : Z) (head : list FDCacheItem)
  : M W (Z * list FDCacheItem) :=
  match find path oflags head with
  | Some (pi, it) =>
      it' <- acessed it ;;
      ret (getFD it', at_ptr pi (fun _ => it') head)
  | None =>
      fd <- FDCacheBase_open path oflags ;;
      if fd <? 0 then ret (fd, head)
      else
        allocated <- sys_new ;;
        if allocated then
          cloned <- sys_strdup path ;;
          let it := mkItem 0 fd oflags (if cloned then Some path else None) in
          if valid it then
            '(it', head') <- add it head ;;
            ret (getFD it', head')
          else ret (fd, head)
        else ret (fd, head)
  end.

(** [FDCache::close]. *)
Definition FDCache_close (fd : Z) (done : bool) (head : list FDCacheItem)
  : M W (Z * list FDCacheItem) :=
  match find_fd fd head with
  | None => r <- FDCacheBase_close fd true ;; ret (r, head)
  | Some (pi, _) => head' <- remove pi done head ;; ret (0, head')
  end.

(** The [FDCache] object: its list and its [TimerBase] part, which is either
    stopped or running with a period in milliseconds. *)
Record FDCache : Type := mkCache {
  head_ : list FDCacheItem;
  timer_period_ms : option Z
}.

(** Constructor: [head_(NULL)], timer not started. *)
Definition FDCache_new : FDCache := {| head_ := []; timer_period_ms := None |}.

(** [FDCache::init]: [startPeriodic]. *)
Definition FDCache_init (c : FDCache) : FDCache :=
  {| head_ := head_ c; timer_period_ms := Some (GarbageCollectionSeconds * 1000) |}.

(** What [fdcache_] points to once it is not null: the member [fallback_],
    a plain [FDCacheBase], or an [FDCache] on the heap. *)
Inductive Strategy : Type :=
| Fallback
| Cached (c : FDCache).

(** Virtual dispatch of [open], [close] and [init]. *)
Definition Strategy_open (s : Strategy) (path : string) (oflags : Z)
  : M W (Z * Strategy) :=
  match s with
  | Fallback => fd <- FDCacheBase_open path oflags ;; ret (fd, Fallback)
  | Cached c =>
      '(fd, h) <- FDCache_open path oflags (head_ c) ;;
      ret (fd, Cached {| head_ := h; timer_period_ms := timer_period_ms c |})
  end.

Definition Strategy_close (s : Strategy) (fd : Z) (done : bool)
  : M W (Z * Strategy) :=
  match s with
  | Fallback => r <- FDCacheBase_close fd done ;; ret (r, Fallback)
  | Cached c =>
      '(r, h) <- FDCache_close fd done (head_ c) ;;
      ret (r, Cached {| head_ := h; timer_period_ms := timer_period_ms c |})
  end.

Definition Strategy_init (s : Strategy) : Strategy :=
  match s with
  | Fallback => Fallback
  | Cached c => Cached (FDCache_init c)
  end.

(** ** [BasicFileSeverBackend] *)

(** [fdcache_]: [None] is the null pointer. *)
Record Backend : Type := mkBackend { fdcache_ : option Strategy }.

(** Constructor: [fdcache_(NULL)]. *)
Definition Backend_new : Backend := {| fdcache_ := None |}.

(** [getFDCache]: builds the cache on first use, falling back to
    [fallback_] when [new] yields null, and initialises what it chose. *)
Definition getFDCache (this : Backend) : M W (Strategy * Backend) :=
  match fdcache_ this with
  | Some s => ret (s, this)
  | None =>
      allocated <- sys_new ;;
      let s := Strategy_init (if allocated then Cached FDCache_new else Fallback) in
      ret (s, {| fdcache_ := Some s |})
  end.

(** [getInfo].  [out_size] and [out_flags] are the reference parameters:
    the values passed in come back unchanged when nothing is assigned. *)
Definition getInfo (path : string) (out_size out_flags : Z) (this : Backend)
  : M W (Z * Z * Z * Backend) :=
  if (0 <? Z.of_nat (String.length path)) then
    '(r, sb) <- sys_stat path ;;
    if r <? 0 then
      e <- sys_errno ;;
      ret (to_int16 e, out_size, out_flags, this)
    else
      let flags := EntryType.FLAG_READABLE in
      let flags :=
        if S_ISDIR (st_mode sb) then to_uint8 (Z.lor flags EntryType.FLAG_DIRECTORY)
        else if S_ISREG (st_mode sb) then to_uint8 (Z.lor flags EntryType.FLAG_FILE)
        else flags in
      ret (to_int16 0, to_uint64 (st_size sb), flags, this)
  else ret (to_int16 Error.INVALID_VALUE, out_size, out_flags, this).

(** The flag that [read] passes to [close]: [rv != 0 || len != inout_size],
    taken before [rv] and [len] are narrowed. *)
Definition done_flag (rv len inout_size : Z) : bool :=
  negb (rv =? 0) || negb (len =? inout_size).

(** The block of [read] between [open] and [close]: seek, then read unless
    the seek failed.  The [off_t] that [lseek] returns is narrowed by the
    assignment to [int rv].  The result is [rv], [len] and the buffer. *)
Definition seek_and_read (fd offset : Z) (out_buffer : list Z) (inout_size : Z)
  : M W (Z * Z * list Z) :=
  r <- sys_lseek fd offset ;;
  let rv := to_int32 r in
  if rv <? 0 then
    e <- sys_errno ;; ret (e, 0, out_buffer)
  else
    '(len, data) <- sys_read fd inout_size ;;
    if len <? 0 then e <- sys_errno ;; ret (e, len, data)
    else ret (0, len, data).

(** [read].  The result is the status, the buffer, [inout_size] on return
    and the object.  The strategy that [getFDCache] returns is the object
    [fdcache_] points to, so its updates are stored back. *)
Definition read (path : string) (offset : Z) (out_buffer : list Z) (inout_size : Z)
  (this : Backend) : M W (Z * list Z * Z * Backend) :=
  if (0 <? Z.of_nat (String.length path)) then
    '(cache, this) <- getFDCache this ;;
    '(fd, cache) <- Strategy_open cache path O_RDONLY ;;
    if fd <? 0 then
      e <- sys_errno ;;
      ret (to_int16 e, out_buffer, inout_size, {| fdcache_ := Some cache |})
    else
      '(rv, len, buf) <- seek_and_read fd offset out_buffer inout_size ;;
      '(_, cache) <- Strategy_close cache fd (done_flag rv len inout_size) ;;
      ret (to_int16 rv, buf, to_uint16 len, {| fdcache_ := Some cache |})
  else ret (to_int16 Error.INVALID_VALUE, out_buffer, inout_size, this).

End Cache.

(** ** Histories of cache operations *)

Section History.

Context {W : Type} `{Posix W}.

(** What can happen to an [FDCache] between two observations: a call of
    [open] or [close], a timer event, and, from the environment, the clock
    moving or the world changing under the cache. *)
Inductive Op : Type :=
| OpOpen (path : string) (oflags : Z)
| OpClose (fd : Z) (done : bool)
| OpTimer
| OpClock (t : Z)
| OpWorld (f : W -> W).

Definition step (o : Op) (head : list FDCacheItem) : M W (list FDCacheItem) :=
  match o with
  | OpOpen path oflags => '(_, h) <- FDCache_open path oflags head ;; ret h
  | OpClose fd done => '(_, h) <- FDCache_close fd done head ;; ret h
  | OpTimer => handleTimerEvent head
  | OpClock t =>
      fun m => (head, {| world := world m; clock := t; trace := trace m |})
  | OpWorld f =>
      fun m => (head, {| world := f (world m); clock := clock m; trace := trace m |})
  end.

Fixpoint run (ops : list Op) (head : list FDCacheItem) : M W (list FDCacheItem) :=
  match ops with
  | [] => ret head
  | o :: ops' => h <- step o head ;; run ops' h
  end.

(** An operation that is not [open] of the given key. *)
Definition opens (path : string) (oflags : Z) (o : Op) : bool :=
  match o with
  | OpOpen p f => String.eqb p path && (f =? oflags)
  | _ => false
  end.

End History.

(** ** Destructors and the back end as its users drive it *)

Section Lifetime.

Context {W : Type} `{Posix W}.

(** [~FDCache]: [stop()], then [clear()].  The object is gone afterwards, so
    only the calls that [clear] makes remain to be seen. *)
Definition FDCache_delete (c : FDCache) : M W unit := clear (head_ c).

(** [~BasicFileSeverBackend]: unless [fdcache_] points to [fallback_], the
    object it points to is deleted (deleting the null pointer does nothing)
    and [fdcache_] is set to null. *)
Definition Backend_delete (this : Backend) : M W Backend :=
  match fdcache_ this with
  | Some Fallback => ret this
  | Some (Cached c) => _ <- FDCache_delete c ;; ret {| fdcache_ := None |}
  | None => ret {| fdcache_ := None |}
  end.

(** A timer event reaches [handleTimerEvent] of the [FDCache] whose timer
    runs; there is no other subscriber. *)
Definition Backend_timer (this : Backend) : M W Backend :=
  match fdcache_ this with
  | Some (Cached c) =>
      match timer_period_ms c with
      | Some _ =>
          h <- handleTimerEvent (head_ c) ;;
          ret {| fdcache_ :=
                   Some (Cached {| head_ := h; timer_period_ms := timer_period_ms c |}) |}
      | None => ret this
      end
  | _ => ret this
  end.

(** What the owner of a back end and its environment can do to it. *)
Inductive Call : Type :=
| CallRead (path : string) (offset : Z) (out_buffer : list Z) (inout_size : Z)
| CallGetInfo (path : string) (out_size out_flags : Z)
| CallTimer
| CallClock (t : Z)
| CallWorld (f : W -> W).

Definition serve (c : Call) (this : Backend) : M W Backend :=
  match c with
  | CallRead path offset buf n =>
      '(_, this') <- read path offset buf n this ;; ret this'
  | CallGetInfo path size flags =>
      '(_, this') <- getInfo path size flags this ;; ret this'
  | CallTimer => Backend_timer this
  | CallClock t =>
      fun m => (this, {| world := world m; clock := t; trace := trace m |})
  | CallWorld f =>
      fun m => (this, {| world := f (world m); clock := clock m; trace := trace m |})
  end.

Fixpoint serve_all (cs : list Call) (this : Backend) : M W Backend :=
  match cs with
  | [] => ret this
  | c :: cs' => this' <- serve c this ;; serve_all cs' this'
  end.

End Lifetime.

(** ** A small operating system to run the back end on *)

Module Sim.

Inductive Node : Type :=
| Dir
| Reg (content : list Z)
| Fifo.

(** Files by path, the descriptor table (descriptor, path, offset), [errno]
    and the number of allocations the heap can still serve. *)
Record World : Type := mkWorld {
  files : list (string * Node);
  fds : list (Z * (string * Z));
  errno : Z;
  heap : nat
}.

Definition ENOENT : Z := 2.
Definition EBADF : Z := 9.
Definition EISDIR : Z := 21.
Definition EINVAL : Z := 22.

Fixpoint lookup_file (path : string) (l : list (string * Node)) : option Node :=
  match l with
  | [] => None
  | (p, n) :: l' => if String.eqb p path then Some n else lookup_file path l'
  end.

Fixpoint lookup_fd (fd : Z) (l : list (Z * (string * Z))) : option (string * Z) :=
  match l with
  | [] => None
  | (d, e) :: l' => if d =? fd then Some e else lookup_fd fd l'
  end.

Definition drop_fd (fd : Z) (l : list (Z * (string * Z))) : list (Z * (string * Z)) :=
  filter (fun de => negb (fst de =? fd)) l.

(** The lowest descriptor from 3 upwards that is not in use. *)
Fixpoint lowest_free (candidate : Z) (fuel : nat) (l : list (Z * (string * Z))) : Z :=
  match fuel with
  | O => candidate
  | S fuel' =>
      match lookup_fd candidate l with
      | None => candidate
      | Some _ => lowest_free (candidate + 1) fuel' l
      end
  end.

Definition fail (e : Z) (w : World) : World :=
  {| files := files w; fds := fds w; errno := e; heap := heap w |}.

Definition with_fds (l : list (Z * (string * Z))) (w : World) : World :=
  {| files := files w; fds := l; errno := errno w; heap := heap w |}.

Definition open (path : string) (oflags : Z) (w : World) : Z * World :=
  match lookup_file path (files w) with
  | None => (-1, fail ENOENT w)
  | Some _ =>
      let fd := lowest_free 3 (List.length (fds w)) (fds w) in
      (fd, with_fds ((fd, (path, 0)) :: fds w) w)
  end.

Definition close (fd : Z) (w : World) : Z * World :=
  match lookup_fd fd (fds w) with
  | None => (-1, fail EBADF w)
  | Some _ => (0, with_fds (drop_fd fd (fds w)) w)
  end.

Definition lseek (fd offset : Z) (w : World) : Z * World :=
  match lookup_fd fd (fds w) with
  | None => (-1, fail EBADF w)
  | Some (p, _) =>
      if offset <? 0 then (-1, fail EINVAL w)
      else (offset, with_fds ((fd, (p, offset)) :: drop_fd fd (fds w)) w)
  end.

Definition read (fd count : Z) (w : World) : (Z * list Z) * World :=
  match lookup_fd fd (fds w) with
  | None => ((-1, []), fail EBADF w)
  | Some (p, off) =>
      match lookup_file p (files w) with
      | Some (Reg content) =>
          let data := firstn (Z.to_nat count) (skipn (Z.to_nat off) content) in
          let n := Z.of_nat (List.length data) in
          ((n, data), with_fds ((fd, (p, off + n)) :: drop_fd fd (fds w)) w)
      | Some Dir => ((-1, []), fail EISDIR w)
      | _ => ((-1, []), fail EBADF w)
      end
  end.

Definition stat (path : string) (w : World) : (Z * stat_t) * World :=
  match lookup_file path (files w) with
  | None => ((-1, mkStat 0 0), fail ENOENT w)
  | Some Dir => ((0, mkStat 4096 16877), w)                     (* 040755 *)
  | Some (Reg content) => ((0, mkStat (Z.of_nat (List.length content)) 33188), w)  (* 0100644 *)
  | Some Fifo => ((0, mkStat 0 4516), w)                        (* 010644 *)
  end.

Definition alloc (w : World) : bool * World :=
  match heap w with
  | O => (false, w)
  | S n => (true, {| files := files w; fds := fds w; errno := errno w; heap := n |})
  end.

#[global] Instance posix : Posix World := {|
  posix_open := open;
  posix_close := close;
  posix_lseek := lseek;
  posix_read := read;
  posix_stat := stat;
  posix_errno := errno;
  heap_new := alloc;
  heap_strdup := fun _ => alloc
|}.

(** A world with a directory, a ten-byte file and a pipe. *)
Definition disk : list (string * Node) :=
  [ ("/tmp"%string, Dir);
    ("/tmp/f"%string, Reg [10; 11; 12; 13; 14; 15; 16; 17; 18; 19]);
    ("/tmp/g"%string, Reg [1; 2; 3]);
    ("/tmp/p"%string, Fifo) ].

Definition boot (heap : nat) : World :=
  {| files := disk; fds := []; errno := 0; heap := heap |}.

Definition start (heap : nat) (now : Z) : Machine World :=
  {| world := boot heap; clock := now; trace := [] |}.

End Sim.

(** ** Scenarios on the small operating system *)

Module Scenario.

Definition f : string := "/tmp/f".
Definition g : string := "/tmp/g".

(** Two files opened at time 100 with room on the heap for exactly two
    items; a third [open] then comes back uncached. *)
Definition two_files : list FDCacheItem * Machine Sim.World :=
  run [OpOpen f O_RDONLY; OpOpen g O_RDONLY] [] (Sim.start 4 100).

Definition head_fg : list FDCacheItem := fst two_files.
Definition m_fg : Machine Sim.World := snd two_files.
Definition item_f : FDCacheItem := mkItem 100 3 O_RDONLY (Some f).

Definition uncached_open : (Z * list FDCacheItem) * Machine Sim.World :=
  FDCache_open "/tmp" O_RDONLY head_fg m_fg.

(** Traffic on another file, five seconds later. *)
Definition between : list (@Op Sim.World) :=
  [OpOpen g O_RDONLY; OpClock 105; OpClose 4 false; OpTimer].

(** The same, but the clock moves past the threshold before a timer event. *)
Definition abandoned : list (@Op Sim.World) :=
  [OpOpen g O_RDONLY; OpClock 108; OpTimer].

Definition first_open : (Z * list FDCacheItem) * Machine Sim.World :=
  FDCache_open f O_RDONLY [] (Sim.start 10 100).

Definition after (ops : list (@Op Sim.World)) : list FDCacheItem * Machine Sim.World :=
  run ops (snd (fst first_open)) (snd first_open).

(** Two items of different age, looked at when only the older is stale. *)
Definition mixed : list FDCacheItem * Machine Sim.World :=
  run [OpOpen f O_RDONLY; OpClock 104; OpOpen g O_RDONLY; OpClock 108] []
      (Sim.start 10 100).

Definition item_g : FDCacheItem := mkItem 104 4 O_RDONLY (Some g).

(** A back end that has served a first chunk of the first file. *)
Definition serving : (Z * list Z * Z * Backend) * Machine Sim.World :=
  read f 0 [] 4 Backend_new (Sim.start 10 100).

(** A history in which the first file goes stale and the second does not. *)
Definition history : list (@Op Sim.World) :=
  [OpOpen f O_RDONLY; OpClock 104; OpOpen g O_RDONLY; OpOpen f O_RDONLY;
   OpClock 108; OpOpen g O_RDONLY; OpClock 112; OpTimer; OpClose 4 true].

End Scenario.

(** ** Further scenarios *)

Module Tour.

(** A back end whose [FDCache] could not be allocated. *)
Definition on_fallback : Backend := mkBackend (Some Fallback).

(** The cache object of [Scenario.serving]. *)
Definition serving_cache : FDCache :=
  mkCache [mkItem 100 3 O_RDONLY (Some Scenario.f)] (Some 60000).

(** Requests and timer events after the first chunk has been served. *)
Definition traffic : list (@Call Sim.World) :=
  [CallRead Scenario.g 0 [] 2; CallClock 120; CallTimer;
   CallGetInfo Scenario.f 0 0; CallRead Scenario.f 8 [] 4].

(** An offset of 2 GiB. *)
Definition two_gib : Z := 2147483648.

End Tour.

(** ** Vocabulary of the properties *)

Section Vocabulary.

Context {W : Type} `{Posix W}.

(** The machine after [FDCacheBase::close] has been called on each of the
    descriptors in turn, and the events these calls leave in the trace. *)
Fixpoint close_all (l : list Z) (m : Machine W) : Machine W :=
  match l with
  | [] => m
  | fd :: l' => close_all l' (snd (sys_close fd m))
  end.

Fixpoint close_events (l : list Z) (w : W) : list Event :=
  match l with
  | [] => []
  | fd :: l' => let (r, w') := posix_close fd w in EvClose fd r :: close_events l' w'
  end.

(** The machine after one system call that returned [r], left the world
    [w] and is recorded as [ev]. *)
Definition after_call (m : Machine W) (w : W) (ev : Event) : Machine W :=
  {| world := w; clock := clock m; trace := trace m ++ [ev] |}.

(** The machine in a new state of the world, with nothing added to the
    trace. *)
Definition with_world (m : Machine W) (w : W) : Machine W :=
  {| world := w; clock := clock m; trace := trace m |}.

(** An item for the key is linked. *)
Definition cached (path : string) (oflags : Z) (head : list FDCacheItem) : Prop :=
  find path oflags head <> None.

End Vocabulary.

(** Stale at [now], in the words of the specification: the expired sentinel,
    or idle for longer than the threshold of 7. *)
Definition stale (now : Z) (it : FDCacheItem) : Prop :=
  last_access_ it = 0 \/ now - last_access_ it > 7.

(** At most one item per (path, open mode): the keys are pairwise distinct. *)
Definition unique_keys (head : list FDCacheItem) : Prop := NoDup (map key head).

(** Number of items an [open] of the key could hit. *)
Definition entries_for (path : string) (oflags : Z) (head : list FDCacheItem) : nat :=
  List.length (filter (fun it => equals it path oflags) head).

(** All items of the key carry the descriptor [fd]. *)
Definition key_has_fd (path : string) (oflags fd : Z) (head : list FDCacheItem) : Prop :=
  forall x, In x head -> equals x path oflags = true -> fd_ x = fd.

(** The release flag in the words of the specification, from the values the
    caller gets back. *)
Definition spec_done (status actualLength requestedLength : Z) : bool :=
  negb (status =? 0) || negb (actualLength =? requestedLength).

(** Components of what [getInfo] and [read] hand back. *)
Definition out_status {A B C S} (res : (Z * A * B * C) * S) : Z := fst (fst (fst (fst res))).
Definition info_size {C D S} (res : (Z * Z * C * D) * S) : Z := snd (fst (fst (fst res))).
Definition info_flags {A S} (res : (A * Z * Backend) * S) : Z := snd (fst (fst res)).
Definition read_size {A S} (res : (A * Z * Backend) * S) : Z := snd (fst (fst res)).
Definition out_object {A S} (res : (A * Backend) * S) : Backend := snd (fst res).

(** Which object a strategy is, and the state of its timer when it is an
    [FDCache]. *)
Definition timer_of (s : Strategy) : option (option Z) :=
  match s with
  | Fallback => None
  | Cached c => Some (timer_period_ms c)
  end.

(** Membership of a flag in a flag set. *)
Definition has_flag (flags flag : Z) : bool := Z.land flags flag =? flag.

(** The flag set of the specification for an entry with the given mode. *)
Definition spec_flags (mode : Z) : Z :=
  EntryType.FLAG_READABLE +
  (if S_ISDIR mode then EntryType.FLAG_DIRECTORY
   else if S_ISREG mode then EntryType.FLAG_FILE
   else 0).

(** ** Vocabulary of the further properties *)

(** The list behind a back end: empty when there is no [FDCache]. *)
Definition cache_of (this : Backend) : list FDCacheItem :=
  match fdcache_ this with
  | Some (Cached c) => head_ c
  | _ => []
  end.

(** The list behind a strategy. *)
Definition head_of (s : Strategy) : list FDCacheItem :=
  match s with
  | Cached c => head_ c
  | Fallback => []
  end.

(** An item as [FDCache::open] builds it: a path copy and a descriptor that
    [::open] did not report as an error. *)
Definition well_formed (it : FDCacheItem) : Prop :=
  valid it = true /\ 0 <= fd_ it.

(** An item as [read] has [FDCache::open] build it: well formed and opened
    read-only. *)
Definition read_only_item (it : FDCacheItem) : Prop :=
  well_formed it /\ oflags_ it = O_RDONLY.

(** What holds of the list behind a back end. *)
Definition cache_ok (l : list FDCacheItem) : Prop :=
  unique_keys l /\ Forall read_only_item l.


(** An operation that, if it is an [open], uses open flags in [F]. *)
Definition opens_with {W : Type} (F : Z -> Prop) (o : @Op W) : Prop :=
  match o with
  | OpOpen _ oflags => F oflags
  | _ => True
  end.

(** The machine at another clock reading. *)
Definition at_time {W : Type} (t : Z) (m : Machine W) : Machine W :=
  {| world := world m; clock := t; trace := trace m |}.

(** * Properties *)

Ltac split_all := repeat match goal with |- _ /\ _ => split end.

Ltac by_compute :=
  vm_compute; first [reflexivity | discriminate | intro; discriminate].

Ltac run_monad :=
  unfold FDCacheBase_open, FDCacheBase_close;
  unfold sys_time, sys_errno, sys_open, sys_close, sys_lseek, sys_read,
    sys_stat, sys_new, sys_strdup;
  unfold bind, ret, lift_call; simpl.

Section ConversionFacts.

Lemma to_int16_id z : -32768 <= z <= 32767 -> to_int16 z = z.
Proof.
  intros Hz. unfold to_int16, to_signed.
  rewrite Z.mod_small by lia. lia.
Qed.

Lemma to_uint16_id z : 0 <= z <= 65535 -> to_uint16 z = z.
Proof. intros Hz. unfold to_uint16. apply Z.mod_small. lia. Qed.

Lemma to_uint64_id z : 0 <= z < 18446744073709551616 -> to_uint64 z = z.
Proof. intros Hz. unfold to_uint64. apply Z.mod_small. lia. Qed.

End ConversionFacts.

Section ItemFacts.

Lemma expired_at_stale now it : expired_at now it = true <-> stale now it.
Proof.
  unfold expired_at, stale, MaxAgeSeconds.
  rewrite orb_true_iff, Z.eqb_eq, Z.gtb_gt. intuition lia.
Qed.

Lemma expired_at_expire now it : expired_at now (expire it) = true.
Proof. reflexivity. Qed.

Lemma equals_key it path oflags :
  equals it path oflags = true <-> key it = (Some path, oflags).
Proof.
  unfold equals, key. destruct it as [la fd fl [p|]]; simpl.
  - rewrite andb_true_iff, Z.eqb_eq, String.eqb_eq. split.
    + intros [-> ->]. reflexivity.
    + intros E. injection E as -> ->. auto.
  - rewrite andb_false_r. split; discriminate.
Qed.

Lemma key_set_access t it : key (set_access t it) = key it.
Proof. reflexivity. Qed.

Lemma fd_set_access t it : fd_ (set_access t it) = fd_ it.
Proof. reflexivity. Qed.

End ItemFacts.

Section ListFacts.

Lemma find_Some path oflags l i x :
  find path oflags l = Some (i, x) ->
  nth_error l i = Some x /\ equals x path oflags = true.
Proof.
  revert i. induction l as [|it next IH]; simpl; intros i E; [discriminate|].
  destruct (equals it path oflags) eqn:Eq.
  - injection E as <- <-. auto.
  - destruct (find path oflags next) as [[j y]|]; [|discriminate].
    injection E as <- <-. simpl. apply IH. reflexivity.
Qed.

Lemma find_None path oflags l :
  find path oflags l = None <-> forall x, In x l -> equals x path oflags = false.
Proof.
  induction l as [|it next IH]; simpl.
  - split; [intros _ x [] | reflexivity].
  - destruct (equals it path oflags) eqn:Eq.
    + split; [discriminate|]. intros Hall.
      rewrite Hall in Eq by auto. discriminate.
    + destruct (find path oflags next) as [[j y]|].
      * split; [discriminate|]. intros Hall.
        assert (Some (j, y) = None) by (apply IH; auto). discriminate.
      * split; [|reflexivity]. intros _ x [<-|Hin]; [assumption|].
        apply IH; auto.
Qed.

Lemma find_fd_Some fd l i x :
  find_fd fd l = Some (i, x) -> nth_error l i = Some x /\ fd_ x = fd.
Proof.
  revert i. induction l as [|it next IH]; simpl; intros i E; [discriminate|].
  unfold equals_fd in E. destruct (fd_ it =? fd) eqn:Eq.
  - injection E as <- <-. apply Z.eqb_eq in Eq. auto.
  - destruct (find_fd fd next) as [[j y]|]; [|discriminate].
    injection E as <- <-. simpl. apply IH. reflexivity.
Qed.

Lemma find_fd_None fd l :
  find_fd fd l = None <-> ~ In fd (map fd_ l).
Proof.
  induction l as [|it next IH]; simpl.
  - tauto.
  - unfold equals_fd. destruct (fd_ it =? fd) eqn:Eq.
    + apply Z.eqb_eq in Eq. split; [discriminate|]. tauto.
    + apply Z.eqb_neq in Eq. destruct (find_fd fd next) as [[j y]|].
      * split; [discriminate|]. intros Hn.
        assert (Some (j, y) = None) by (apply IH; tauto). discriminate.
      * split; [|reflexivity]. intros _ [E|Hin]; [auto|].
        apply IH in Hin; auto.
Qed.

(** When no two items carry the same descriptor, as is the case for
    descriptors that are all open, the lookup by descriptor resolves to the
    item that carries it. *)
Lemma find_fd_of_item l e :
  NoDup (map fd_ l) -> In e l -> exists i, find_fd (fd_ e) l = Some (i, e).
Proof.
  induction l as [|it next IH]; simpl; intros Hnd Hin; [contradiction|].
  inversion Hnd as [|? ? Hnotin Hnd']; subst.
  unfold equals_fd. destruct (fd_ it =? fd_ e) eqn:Eq.
  - apply Z.eqb_eq in Eq. destruct Hin as [->|Hin]; [eauto|].
    exfalso. apply Hnotin. rewrite Eq. apply in_map. assumption.
  - destruct Hin as [->|Hin]; [rewrite Z.eqb_refl in Eq; discriminate|].
    destruct (IH Hnd' Hin) as [i Hi]. rewrite Hi. eauto.
Qed.

(** A member call through a pointer that only touches [last_access_]
    changes neither the keys nor the descriptors of the list. *)
Lemma at_ptr_map {B} (g : FDCacheItem -> B) f l i x :
  nth_error l i = Some x -> g (f x) = g x -> map g (at_ptr i f l) = map g l.
Proof.
  revert i. induction l as [|it next IH]; intros [|i]; simpl; try discriminate.
  - intros E Hg. injection E as ->. rewrite Hg. reflexivity.
  - intros E Hg. rewrite (IH i); auto.
Qed.

Lemma at_ptr_nth f l i x :
  nth_error l i = Some x -> nth_error (at_ptr i f l) i = Some (f x).
Proof.
  revert i. induction l as [|it next IH]; intros [|i]; simpl; try discriminate.
  - intros E. injection E as ->. reflexivity.
  - apply IH.
Qed.

Lemma at_ptr_In f l i y :
  In y (at_ptr i f l) -> In y l \/ exists x, nth_error l i = Some x /\ y = f x.
Proof.
  revert i. induction l as [|it next IH]; intros [|i]; simpl; try tauto.
  - intros [<-|Hin]; eauto.
  - intros [<-|Hin]; auto. destruct (IH _ Hin) as [?|?]; auto.
Qed.

Lemma NoDup_map_filter {A B} (g : A -> B) p (l : list A) :
  NoDup (map g l) -> NoDup (map g (filter p l)).
Proof.
  induction l as [|a l IH]; simpl; intros Hnd; [constructor|].
  inversion Hnd as [|? ? Hnotin Hnd']; subst.
  destruct (p a); simpl; auto.
  constructor; auto.
  intros Hin. apply Hnotin.
  apply in_map_iff in Hin as (x & Hx & Hin).
  apply filter_In in Hin as [Hin _].
  apply in_map_iff. eauto.
Qed.

Lemma NoDup_map_eq {A B} (g : A -> B) (l : list A) x y :
  NoDup (map g l) -> In x l -> In y l -> g x = g y -> x = y.
Proof.
  induction l as [|a l IH]; simpl; intros Hnd Hx Hy E; [contradiction|].
  inversion Hnd as [|? ? Hnotin Hnd']; subst.
  destruct Hx as [->|Hx], Hy as [->|Hy]; auto.
  - exfalso. apply Hnotin. rewrite E. apply in_map. assumption.
  - exfalso. apply Hnotin. rewrite <- E. apply in_map. assumption.
Qed.

Lemma unique_keys_entries path oflags head :
  unique_keys head -> (entries_for path oflags head <= 1)%nat.
Proof.
  unfold unique_keys, entries_for.
  induction head as [|it next IH]; simpl; intros Hnd; [lia|].
  inversion Hnd as [|? ? Hnotin Hnd']; subst.
  destruct (equals it path oflags) eqn:Eq; simpl; auto.
  assert (filter (fun x => equals x path oflags) next = []) as ->; [|simpl; lia].
  destruct (filter _ next) as [|y r] eqn:Ef; [reflexivity|].
  assert (In y (filter (fun x => equals x path oflags) next)) as Hy
    by (rewrite Ef; left; reflexivity).
  apply filter_In in Hy as [Hy Ey].
  exfalso. apply Hnotin.
  apply equals_key in Eq. apply equals_key in Ey.
  rewrite Eq, <- Ey. apply in_map. assumption.
Qed.

End ListFacts.

Section SweepFacts.

Context {W : Type} `{Posix W}.

Lemma expired_run it (m : Machine W) : expired it m = (expired_at (clock m) it, m).
Proof.
  unfold expired, expired_at.
  destruct (0 =? last_access_ it); reflexivity.
Qed.

Lemma sys_close_clock fd (m : Machine W) : clock (snd (sys_close fd m)) = clock m.
Proof. run_monad. destruct (posix_close fd (world m)). reflexivity. Qed.

Lemma close_all_clock l (m : Machine W) : clock (close_all l m) = clock m.
Proof.
  revert m. induction l as [|fd l IH]; simpl; intros m; [reflexivity|].
  rewrite IH. apply sys_close_clock.
Qed.

Lemma close_all_trace l (m : Machine W) :
  trace (close_all l m) = trace m ++ close_events l (world m).
Proof.
  revert m. induction l as [|fd l IH]; simpl; intros m.
  - rewrite app_nil_r. reflexivity.
  - rewrite IH. run_monad. destruct (posix_close fd (world m)) as [r w'].
    simpl. rewrite <- app_assoc. reflexivity.
Qed.

Lemma closed_fds_close_events l (w : W) : closed_fds (close_events l w) = l.
Proof.
  revert w. induction l as [|fd l IH]; simpl; intros w; [reflexivity|].
  destruct (posix_close fd w) as [r w']. simpl. rewrite IH. reflexivity.
Qed.

Lemma close_events_only_close l (w : W) :
  forallb is_close_event (close_events l w) = true.
Proof.
  revert w. induction l as [|fd l IH]; simpl; intros w; [reflexivity|].
  destruct (posix_close fd w) as [r w']. simpl. apply IH.
Qed.

(** The loop of [removeExpired] is a filter: the items that are not expired
    stay, in order, and the descriptors of the others are closed, in order. *)
Lemma removeExpired_run l (m : Machine W) :
  removeExpired l m =
    (filter (fun it => negb (expired_at (clock m) it)) l,
     close_all (map fd_ (filter (expired_at (clock m)) l)) m).
Proof.
  revert m. induction l as [|it next IH]; intros m; [reflexivity|].
  simpl. unfold bind at 1. rewrite expired_run.
  destruct (expired_at (clock m) it) eqn:E; simpl.
  - unfold bind, FDCacheBase_close.
    destruct (sys_close (fd_ it) m) as [r m'] eqn:Ec.
    assert (clock m' = clock m) as Hc
      by (change m' with (snd (r, m')); rewrite <- Ec; apply sys_close_clock).
    rewrite IH, Hc. reflexivity.
  - unfold bind. rewrite IH. reflexivity.
Qed.

Lemma filter_kept_twice (p : FDCacheItem -> bool) l :
  filter (fun it => negb (p it)) (filter (fun it => negb (p it)) l)
  = filter (fun it => negb (p it)) l.
Proof.
  induction l as [|a l IH]; simpl; [reflexivity|].
  destruct (p a) eqn:E; simpl; [assumption|]. rewrite E. simpl. congruence.
Qed.

Lemma filter_removed_of_kept (p : FDCacheItem -> bool) l :
  filter p (filter (fun it => negb (p it)) l) = [].
Proof.
  induction l as [|a l IH]; simpl; [reflexivity|].
  destruct (p a) eqn:E; simpl; [assumption|]. rewrite E. assumption.
Qed.

Lemma FDCache_close_found fd done head i x (m : Machine W) :
  find_fd fd head = Some (i, x) ->
  FDCache_close fd done head m =
    (let r := removeExpired (if done then at_ptr i expire head else head) m in
     ((0, fst r), snd r)).
Proof.
  intros E. unfold FDCache_close, remove. rewrite E. unfold bind.
  destruct (removeExpired _ m). reflexivity.
Qed.

(** C2.  A sweep at clock reading [now] keeps exactly the items that are not
    stale (neither marked with the sentinel 0 nor idle for more than 7) and
    removes the others, calling [close] on the descriptor of each removed
    item and on nothing else; an unmarked item idle for at most 7 stays.
    A second sweep at the same reading changes nothing and makes no call, a
    sweep of the empty list does nothing, and the timer event and a
    [close] of a cached descriptor both run this sweep. *)
Theorem sweep_removes_exactly_stale (head : list FDCacheItem) (m : Machine W) :
  let now := clock m in
  let removed := filter (expired_at now) head in
  let r := removeExpired head m in
  fst r = filter (fun it => negb (expired_at now it)) head
  /\ (forall it, In it (fst r) <-> In it head /\ ~ stale now it)
  /\ (forall it, In it removed <-> In it head /\ stale now it)
  /\ (forall it, In it head -> last_access_ it <> 0 ->
                 now - last_access_ it <= 7 -> In it (fst r))
  /\ trace (snd r) = trace m ++ close_events (map fd_ removed) (world m)
  /\ closed_fds (close_events (map fd_ removed) (world m)) = map fd_ removed
  /\ forallb is_close_event (close_events (map fd_ removed) (world m)) = true
  /\ removeExpired (fst r) (snd r) = r
  /\ removeExpired [] m = ([], m)
  /\ handleTimerEvent head m = r
  /\ (forall fd done i x, find_fd fd head = Some (i, x) ->
        FDCache_close fd done head m =
          (let r' := removeExpired (if done then at_ptr i expire head else head) m in
           ((0, fst r'), snd r'))).
Proof.
  intros now removed r. subst r. rewrite removeExpired_run. simpl. fold now.
  assert (forall it, In it (filter (fun it => negb (expired_at now it)) head)
                     <-> In it head /\ ~ stale now it) as Hkept.
  { intros it. rewrite filter_In, negb_true_iff, <- expired_at_stale.
    destruct (expired_at now it); intuition congruence. }
  split_all.
  - reflexivity.
  - apply Hkept.
  - intros it. unfold removed. rewrite filter_In, expired_at_stale. tauto.
  - intros it Hin Hla Hidle. apply Hkept. split; [assumption|].
    unfold stale. lia.
  - apply close_all_trace.
  - apply closed_fds_close_events.
  - apply close_events_only_close.
  - rewrite removeExpired_run, close_all_clock. fold now.
    rewrite filter_kept_twice, filter_removed_of_kept. reflexivity.
  - reflexivity.
  - unfold handleTimerEvent. apply removeExpired_run.
  - intros fd done i x E. eapply FDCache_close_found. eassumption.
Qed.

End SweepFacts.

Section OpenCloseFacts.

Context {W : Type} `{Posix W}.

(** [open] on a hit: the found item is stamped and its descriptor returned;
    the machine is as before. *)
Lemma FDCache_open_hit path oflags head i x (m : Machine W) :
  find path oflags head = Some (i, x) ->
  FDCache_open path oflags head m =
    ((fd_ x, at_ptr i (fun _ => set_access (clock m) x) head), m).
Proof. intros E. unfold FDCache_open. rewrite E. reflexivity. Qed.

(** [open] on a miss, call by call. *)
Lemma FDCache_open_miss path oflags head (m : Machine W) :
  find path oflags head = None ->
  FDCache_open path oflags head m =
    (let (fd, w1) := posix_open path oflags (world m) in
     let m1 := after_call m w1 (EvOpen path oflags fd) in
     if fd <? 0 then ((fd, head), m1)
     else
       let (allocated, w2) := heap_new w1 in
       if allocated then
         let (cloned, w3) := heap_strdup path w2 in
         if cloned then
           ((fd, mkItem (clock m) fd oflags (Some path) :: head), with_world m1 w3)
         else ((fd, head), with_world m1 w3)
       else ((fd, head), with_world m1 w2)).
Proof.
  intros E. unfold FDCache_open. rewrite E. unfold add, acessed. run_monad.
  destruct (posix_open path oflags (world m)) as [fd w1]. simpl.
  destruct (fd <? 0); [reflexivity|]. simpl.
  destruct (heap_new w1) as [[|] w2]; simpl.
  - rewrite app_nil_r. destruct (heap_strdup path w2) as [[|] w3]; simpl;
      rewrite app_nil_r; reflexivity.
  - rewrite app_nil_r. reflexivity.
Qed.

(** [close] of a descriptor that is not cached. *)
Lemma FDCache_close_missing fd done head (m : Machine W) :
  find_fd fd head = None ->
  FDCache_close fd done head m =
    (let (r, w') := posix_close fd (world m) in
     ((r, head), after_call m w' (EvClose fd r))).
Proof.
  intros E. unfold FDCache_close. rewrite E. run_monad.
  destruct (posix_close fd (world m)). reflexivity.
Qed.

Lemma unique_keys_at_ptr f head i x :
  nth_error head i = Some x -> key (f x) = key x ->
  unique_keys head -> unique_keys (at_ptr i f head).
Proof.
  intros Hn Hk Hu. unfold unique_keys.
  rewrite (at_ptr_map key f head i Hn Hk). assumption.
Qed.

Lemma unique_keys_removeExpired head (m : Machine W) :
  unique_keys head -> unique_keys (fst (removeExpired head m)).
Proof.
  intros Hu. rewrite removeExpired_run. simpl.
  apply NoDup_map_filter. assumption.
Qed.

Lemma unique_keys_open path oflags head (m : Machine W) :
  unique_keys head -> unique_keys (snd (fst (FDCache_open path oflags head m))).
Proof.
  intros Hu. destruct (find path oflags head) as [[i x]|] eqn:E.
  - rewrite (FDCache_open_hit _ _ _ m E). simpl.
    apply find_Some in E as [Hn _].
    eapply unique_keys_at_ptr; eauto.
  - rewrite (FDCache_open_miss _ _ _ m E).
    destruct (posix_open path oflags (world m)) as [fd w1].
    destruct (fd <? 0); [assumption|].
    destruct (heap_new w1) as [[|] w2]; [|assumption].
    destruct (heap_strdup path w2) as [[|] w3]; [|assumption].
    simpl. unfold unique_keys. simpl. constructor; [|assumption].
    intros Hin. apply in_map_iff in Hin as (y & Hy & Hin).
    simpl in Hy. apply (proj2 (equals_key y path oflags)) in Hy.
    rewrite (proj1 (find_None path oflags head) E y Hin) in Hy. discriminate.
Qed.

Lemma unique_keys_close fd done head (m : Machine W) :
  unique_keys head -> unique_keys (snd (fst (FDCache_close fd done head m))).
Proof.
  intros Hu. destruct (find_fd fd head) as [[i x]|] eqn:E.
  - rewrite (FDCache_close_found _ done _ m E). simpl.
    apply unique_keys_removeExpired.
    destruct done; [|assumption].
    apply find_fd_Some in E as [Hn _].
    eapply unique_keys_at_ptr; eauto.
  - rewrite (FDCache_close_missing _ done _ m E).
    destruct (posix_close fd (world m)). assumption.
Qed.

Lemma unique_keys_step o head (m : Machine W) :
  unique_keys head -> unique_keys (fst (step o head m)).
Proof.
  intros Hu. destruct o as [path oflags|fd done| |t|f]; simpl; try assumption.
  - unfold bind.
    pose proof (unique_keys_open path oflags m Hu) as Hopen.
    destruct (FDCache_open path oflags head m) as [[fd h] m']. assumption.
  - unfold bind.
    pose proof (unique_keys_close fd done m Hu) as Hclose.
    destruct (FDCache_close fd done head m) as [[r h] m']. assumption.
  - apply unique_keys_removeExpired. assumption.
Qed.

Lemma unique_keys_run ops head (m : Machine W) :
  unique_keys head -> unique_keys (fst (run ops head m)).
Proof.
  revert head m. induction ops as [|o ops IH]; simpl; intros head m Hu.
  - assumption.
  - unfold bind. pose proof (unique_keys_step o m Hu) as Hs.
    destruct (step o head m) as [h m']. apply IH. assumption.
Qed.

(** C1.  Starting from the empty list of the constructor, after any history
    of [open], [close] and timer events, interleaved with any moves of the
    clock and changes of the world, the list holds at most one item that
    equals a given (path, open mode). *)
Theorem at_most_one_entry_per_key (ops : list Op) (m : Machine W)
    (path : string) (oflags : Z) :
  (entries_for path oflags (fst (run ops [] m)) <= 1)%nat.
Proof.
  apply unique_keys_entries, unique_keys_run. constructor.
Qed.

End OpenCloseFacts.

Section AcquireReleaseFacts.

Context {W : Type} `{Posix W}.

(** What a miss does at the system boundary, whatever the allocator says:
    one [open], whose result is returned. *)
Lemma FDCache_open_miss_calls_open path oflags head (m : Machine W) fd w1 :
  find path oflags head = None ->
  posix_open path oflags (world m) = (fd, w1) ->
  fst (fst (FDCache_open path oflags head m)) = fd
  /\ trace (snd (FDCache_open path oflags head m)) = trace m ++ [EvOpen path oflags fd].
Proof.
  intros E Ho. rewrite (FDCache_open_miss _ _ _ m E), Ho.
  destruct (fd <? 0); [split; reflexivity|].
  destruct (heap_new w1) as [[|] w2]; [|split; reflexivity].
  destruct (heap_strdup path w2) as [[|] w3]; split; reflexivity.
Qed.

Lemma find_cached path oflags head :
  cached path oflags head -> exists i x, find path oflags head = Some (i, x).
Proof.
  unfold cached. destruct (find path oflags head) as [[i x]|]; [eauto|].
  intros Hc. contradiction Hc. reflexivity.
Qed.

Lemma equals_set_access t x path oflags :
  equals (set_access t x) path oflags = equals x path oflags.
Proof. reflexivity. Qed.

Lemma key_has_fd_at_ptr path oflags fd f head i x :
  nth_error head i = Some x ->
  equals (f x) path oflags = equals x path oflags -> fd_ (f x) = fd_ x ->
  key_has_fd path oflags fd head -> key_has_fd path oflags fd (at_ptr i f head).
Proof.
  intros Hn He Hf Hk y Hy Ey.
  apply at_ptr_In in Hy as [Hy|(x0 & Hn0 & ->)].
  - apply Hk; assumption.
  - rewrite Hn in Hn0. injection Hn0 as <-.
    rewrite Hf. apply Hk; [eapply nth_error_In; eassumption | congruence].
Qed.

Lemma key_has_fd_removeExpired path oflags fd head (m : Machine W) :
  key_has_fd path oflags fd head ->
  key_has_fd path oflags fd (fst (removeExpired head m)).
Proof.
  intros Hk y Hy Ey. rewrite removeExpired_run in Hy. simpl in Hy.
  apply filter_In in Hy as [Hy _]. apply Hk; assumption.
Qed.

(** An operation other than [open] of the key creates no item for the key. *)
Lemma key_has_fd_step path oflags fd o head (m : Machine W) :
  opens path oflags o = false ->
  key_has_fd path oflags fd head ->
  key_has_fd path oflags fd (fst (step o head m)).
Proof.
  intros Ho Hk. destruct o as [p f|d done| |t|g]; simpl; try assumption.
  - unfold bind. destruct (find p f head) as [[i x]|] eqn:E.
    + rewrite (FDCache_open_hit _ _ _ m E). simpl.
      apply find_Some in E as [Hn _].
      eapply key_has_fd_at_ptr; eauto.
    + rewrite (FDCache_open_miss _ _ _ m E).
      destruct (posix_open p f (world m)) as [r w1].
      destruct (r <? 0); [assumption|].
      destruct (heap_new w1) as [[|] w2]; [|assumption].
      destruct (heap_strdup p w2) as [[|] w3]; [|assumption].
      simpl. intros y [<-|Hy] Ey; [|apply Hk; assumption].
      exfalso. unfold equals in Ey. simpl in Ey, Ho.
      apply andb_true_iff in Ey as [Ef Ep].
      apply Z.eqb_eq in Ef. apply String.eqb_eq in Ep. subst.
      rewrite String.eqb_refl, Z.eqb_refl in Ho. discriminate.
  - unfold bind. destruct (find_fd d head) as [[i x]|] eqn:E.
    + rewrite (FDCache_close_found _ done _ m E). simpl.
      apply key_has_fd_removeExpired.
      destruct done; [|assumption].
      apply find_fd_Some in E as [Hn _].
      eapply key_has_fd_at_ptr; eauto.
    + rewrite (FDCache_close_missing _ done _ m E).
      destruct (posix_close d (world m)). assumption.
  - apply key_has_fd_removeExpired. assumption.
Qed.

Lemma key_has_fd_run path oflags fd ops head (m : Machine W) :
  forallb (fun o => negb (opens path oflags o)) ops = true ->
  key_has_fd path oflags fd head ->
  key_has_fd path oflags fd (fst (run ops head m)).
Proof.
  revert head m. induction ops as [|o ops IH]; simpl; intros head m Hops Hk.
  - assumption.
  - apply andb_true_iff in Hops as [Ho Hops]. apply negb_true_iff in Ho.
    unfold bind. pose proof (key_has_fd_step o m Ho Hk) as Hs.
    destruct (step o head m) as [h m']. apply IH; assumption.
Qed.

(** After an [open] that left an item for its key, every item of the key
    carries the descriptor that [open] returned. *)
Lemma key_has_fd_open path oflags head (m : Machine W) :
  unique_keys head ->
  cached path oflags (snd (fst (FDCache_open path oflags head m))) ->
  key_has_fd path oflags (fst (fst (FDCache_open path oflags head m)))
    (snd (fst (FDCache_open path oflags head m))).
Proof.
  intros Hu Hc. pose proof (unique_keys_open path oflags m Hu) as Hu'.
  destruct (find path oflags head) as [[i x]|] eqn:E.
  - rewrite (FDCache_open_hit _ _ _ m E) in *. simpl in *.
    apply find_Some in E as [Hn Ex].
    pose proof (at_ptr_nth (fun _ => set_access (clock m) x) _ _ Hn) as Hn'.
    intros y Hy Ey.
    assert (y = set_access (clock m) x) as ->; [|reflexivity].
    eapply (NoDup_map_eq key); [exact Hu' | exact Hy | |].
    + eapply nth_error_In; eassumption.
    + apply equals_key in Ey. rewrite Ey. symmetry.
      apply equals_key. assumption.
  - rewrite (FDCache_open_miss _ _ _ m E) in *.
    destruct (posix_open path oflags (world m)) as [r w1].
    destruct (r <? 0); [contradiction Hc; assumption|].
    destruct (heap_new w1) as [[|] w2]; [|contradiction Hc; assumption].
    destruct (heap_strdup path w2) as [[|] w3]; [|contradiction Hc; assumption].
    simpl in *. intros y [<-|Hy] Ey; [reflexivity|].
    rewrite (proj1 (find_None path oflags head) E y Hy) in Ey. discriminate.
Qed.

End AcquireReleaseFacts.

Section AcquireRelease.

Context {W : Type} `{Posix W}.

(** C8.  [close] of a descriptor that no item carries calls
    [FDCacheBase::close] on it, returns what that call returned, and leaves
    the list as it was: no item is marked and no sweep runs. *)
Theorem release_uncached_closes_directly (fd : Z) (done : bool)
    (head : list FDCacheItem) (m : Machine W) :
  ~ In fd (map fd_ head) ->
  FDCache_close fd done head m =
    (let (r, w') := posix_close fd (world m) in
     ((r, head), after_call m w' (EvClose fd r))).
Proof.
  intros Hn. apply FDCache_close_missing, find_fd_None. assumption.
Qed.

(** C5.  On a miss where [open] succeeds but either [new] fails or [new]
    succeeds and [strdup] fails, [FDCache::open] returns the descriptor that
    the system call produced, which is not negative, and the list is the one
    it started with, so it still has no item for the key; the only file call
    made is that [open]. *)
Theorem open_allocation_failure_returns_uncached (path : string) (oflags : Z)
    (head : list FDCacheItem) (m : Machine W) (fd : Z) (w1 : W) :
  find path oflags head = None ->
  posix_open path oflags (world m) = (fd, w1) ->
  0 <= fd ->
  fst (heap_new w1) = false \/
  (fst (heap_new w1) = true /\ fst (heap_strdup path (snd (heap_new w1))) = false) ->
  let r := FDCache_open path oflags head m in
  fst (fst r) = fd
  /\ 0 <= fst (fst r)
  /\ snd (fst r) = head
  /\ find path oflags (snd (fst r)) = None
  /\ trace (snd r) = trace m ++ [EvOpen path oflags fd].
Proof.
  intros E Ho Hfd Halloc r. subst r.
  rewrite (FDCache_open_miss _ _ _ m E), Ho.
  destruct (fd <? 0) eqn:Eneg; [apply Z.ltb_lt in Eneg; lia|].
  destruct (heap_new w1) as [a w2]. simpl in Halloc.
  destruct a.
  - destruct Halloc as [Hf|[_ Hs]]; [discriminate|].
    destruct (heap_strdup path w2) as [c w3]. simpl in Hs. subst c.
    simpl. auto.
  - simpl. auto.
Qed.

(** C3.  Let [close] be called with the descriptor of an item [e] that the
    lookup by descriptor resolves to, as it does for every linked item when
    descriptors are pairwise distinct.  With or without [done], the call runs
    [removeExpired] over the whole list: what stays are the items not stale
    at the current clock reading, and [close] is called on the descriptor of
    each removed one.  With [done] the item is first marked with the
    sentinel, so it is among the removed, its descriptor is closed, and no
    item for its (path, open mode) is left: the next [open] of that key is a
    miss, which calls the system [open] after that close and returns its
    result.  The handle handed out is thus the product of a new [open] call;
    which number it bears is the operating system's choice. *)
Theorem done_release_purges_entry (head : list FDCacheItem) (m : Machine W)
    (e : FDCacheItem) (i : nat) :
  unique_keys head ->
  find_fd (fd_ e) head = Some (i, e) ->
  let marked := at_ptr i expire head in
  let r := FDCache_close (fd_ e) true head m in
  let head' := snd (fst r) in
  let m' := snd r in
  (forall done : bool,
      let l := if done then marked else head in
      let removed := filter (expired_at (clock m)) l in
      FDCache_close (fd_ e) done head m =
        ((0, filter (fun it => negb (expired_at (clock m) it)) l),
         close_all (map fd_ removed) m)
      /\ trace (close_all (map fd_ removed) m)
         = trace m ++ close_events (map fd_ removed) (world m)
      /\ closed_fds (close_events (map fd_ removed) (world m)) = map fd_ removed)
  /\ nth_error marked i = Some (expire e)
  /\ last_access_ (expire e) = 0
  /\ In (expire e) (filter (expired_at (clock m)) marked)
  /\ trace m' = trace m ++
       close_events (map fd_ (filter (expired_at (clock m)) marked)) (world m)
  /\ In (fd_ e)
       (closed_fds
          (close_events (map fd_ (filter (expired_at (clock m)) marked)) (world m)))
  /\ (forall path oflags, equals e path oflags = true ->
        find path oflags head' = None
        /\ (let (fd2, w2) := posix_open path oflags (world m') in
            fst (fst (FDCache_open path oflags head' m')) = fd2
            /\ trace (snd (FDCache_open path oflags head' m'))
               = trace m' ++ [EvOpen path oflags fd2])).
Proof.
  intros Hu E marked r head' m'.
  pose proof (find_fd_Some _ _ E) as [Hn _].
  assert (nth_error marked i = Some (expire e)) as Hn'
    by (apply at_ptr_nth; assumption).
  assert (In (expire e) (filter (expired_at (clock m)) marked)) as Hin.
  { apply filter_In. split; [eapply nth_error_In; eassumption | reflexivity]. }
  assert (forall done : bool,
      let l := if done then marked else head in
      FDCache_close (fd_ e) done head m =
        ((0, filter (fun it => negb (expired_at (clock m) it)) l),
         close_all (map fd_ (filter (expired_at (clock m)) l)) m)) as Hclose.
  { intros done l. rewrite (FDCache_close_found _ done _ m E).
    fold marked. fold l. rewrite removeExpired_run. reflexivity. }
  assert (unique_keys marked) as Hum
    by (eapply unique_keys_at_ptr; eauto).
  subst r head' m'. rewrite (Hclose true). simpl.
  split.
  { intros done. split; [apply Hclose|].
    split; [apply close_all_trace | apply closed_fds_close_events]. }
  split_all; try assumption; try reflexivity.
  - apply close_all_trace.
  - rewrite closed_fds_close_events.
    change (fd_ e) with (fd_ (expire e)). apply in_map. assumption.
  - intros path oflags Ee.
    assert (find path oflags
              (filter (fun it => negb (expired_at (clock m) it)) marked) = None)
      as Hnone.
    { apply find_None. intros x Hx.
      apply filter_In in Hx as [Hx Hkeep].
      destruct (equals x path oflags) eqn:Ex; [|reflexivity].
      assert (x = expire e) as ->.
      { eapply (NoDup_map_eq key); [exact Hum | exact Hx | |].
        - eapply nth_error_In; eassumption.
        - apply equals_key in Ex. rewrite Ex. symmetry.
          apply equals_key. assumption. }
      rewrite expired_at_expire in Hkeep. discriminate. }
    split; [assumption|].
    destruct (posix_open path oflags _) as [fd2 w2] eqn:Ho.
    apply FDCache_open_miss_calls_open with (w1 := w2); assumption.
Qed.

(** C4.  Take an [open] of a key that leaves an item for it (a hit, or a
    miss whose [open] and allocations succeed), then any operations other
    than [open] of that key.  If an item for the key is still linked, the
    next [open] of the key returns the same descriptor and leaves the
    machine untouched: no system call is made.  If the item has been
    removed, the next [open] of the key calls the system [open] and returns
    its result. *)
Theorem hit_stability (path : string) (oflags : Z) (head0 : list FDCacheItem)
    (m0 : Machine W) (ops : list Op) :
  unique_keys head0 ->
  let r1 := FDCache_open path oflags head0 m0 in
  let fd1 := fst (fst r1) in
  cached path oflags (snd (fst r1)) ->
  forallb (fun o => negb (opens path oflags o)) ops = true ->
  let r := run ops (snd (fst r1)) (snd r1) in
  let head2 := fst r in
  let m2 := snd r in
  (cached path oflags head2 ->
     fst (fst (FDCache_open path oflags head2 m2)) = fd1
     /\ snd (FDCache_open path oflags head2 m2) = m2)
  /\ (~ cached path oflags head2 ->
        let (fd2, w2) := posix_open path oflags (world m2) in
        fst (fst (FDCache_open path oflags head2 m2)) = fd2
        /\ trace (snd (FDCache_open path oflags head2 m2))
           = trace m2 ++ [EvOpen path oflags fd2]).
Proof.
  intros Hu r1 fd1 Hc Hops r head2 m2.
  pose proof (key_has_fd_open m0 Hu Hc) as Hk. fold r1 in Hk. fold fd1 in Hk.
  pose proof (key_has_fd_run ops (snd r1) Hops Hk) as Hk2.
  fold r in Hk2. fold head2 in Hk2.
  split.
  - intros Hc2. apply find_cached in Hc2 as (j & y & E).
    rewrite (FDCache_open_hit _ _ _ m2 E). simpl.
    split; [|reflexivity].
    apply find_Some in E as [Hn Ey].
    apply Hk2; [eapply nth_error_In; eassumption | assumption].
  - intros Hnc. unfold cached in Hnc.
    destruct (find path oflags head2) as [[j y]|] eqn:E;
      [contradiction Hnc; discriminate|].
    destruct (posix_open path oflags (world m2)) as [fd2 w2] eqn:Ho.
    apply FDCache_open_miss_calls_open with (w1 := w2); assumption.
Qed.

End AcquireRelease.

Section BackendFacts.

Context {W : Type} `{Posix W}.

Lemma nonempty_path path :
  path <> EmptyString -> (0 <? Z.of_nat (String.length path)) = true.
Proof.
  intros Hp. destruct path; [contradiction Hp; reflexivity|].
  apply Z.ltb_lt. simpl. lia.
Qed.

Lemma seek_and_read_seek_failed fd offset buf n (m : Machine W) :
  to_int32 (fst (posix_lseek fd offset (world m))) < 0 ->
  seek_and_read fd offset buf n m =
    (let (r, w) := posix_lseek fd offset (world m) in
     ((posix_errno w, 0, buf), after_call m w (EvLseek fd offset r))).
Proof.
  intros Hneg. unfold seek_and_read. run_monad.
  destruct (posix_lseek fd offset (world m)) as [r w]. simpl in *.
  apply Z.ltb_lt in Hneg. rewrite Hneg. reflexivity.
Qed.

Lemma seek_and_read_seek_ok fd offset buf n (m : Machine W) :
  0 <= to_int32 (fst (posix_lseek fd offset (world m))) ->
  seek_and_read fd offset buf n m =
    (let (r, w) := posix_lseek fd offset (world m) in
     let '((len, data), w') := posix_read fd n w in
     let m' := after_call (after_call m w (EvLseek fd offset r)) w' (EvRead fd n len) in
     ((if len <? 0 then posix_errno w' else 0, len, data), m')).
Proof.
  intros Hok. unfold seek_and_read. run_monad.
  destruct (posix_lseek fd offset (world m)) as [r w]. simpl in *.
  destruct (to_int32 r <? 0) eqn:E; [apply Z.ltb_lt in E; lia|]. simpl.
  destruct (posix_read fd n w) as [[len data] w']. simpl.
  destruct (len <? 0); reflexivity.
Qed.

(** [read] with a path and a descriptor, as the sequence of its four steps. *)
Lemma read_run path offset buf n this (m : Machine W) :
  path <> EmptyString ->
  let g := getFDCache this m in
  let o := Strategy_open (fst (fst g)) path O_RDONLY (snd g) in
  let fd := fst (fst o) in
  0 <= fd ->
  let io := seek_and_read fd offset buf n (snd o) in
  let rv := fst (fst (fst io)) in
  let len := snd (fst (fst io)) in
  let rel := Strategy_close (snd (fst o)) fd (done_flag rv len n) (snd io) in
  read path offset buf n this m
  = ((to_int16 rv, snd (fst io), to_uint16 len, mkBackend (Some (snd (fst rel)))),
     snd rel).
Proof.
  intros Hp g o fd Hfd io rv len rel.
  unfold read. rewrite (nonempty_path Hp). unfold bind at 1. fold g.
  destruct g as [[cache this1] m1] eqn:Eg. simpl in o.
  unfold bind at 1. fold o.
  destruct o as [[fd' cache1] m2] eqn:Eo. simpl in fd. subst fd.
  destruct (fd' <? 0) eqn:E; [apply Z.ltb_lt in E; lia|].
  unfold bind at 1. simpl in io. fold io.
  destruct io as [[[rv' len'] buf'] m3] eqn:Eio. simpl in rv, len. subst rv len.
  unfold bind at 1. simpl in rel. fold rel.
  destruct rel as [[rc cache2] m4]. reflexivity.
Qed.

Lemma Strategy_open_timer s path oflags (m : Machine W) :
  timer_of (snd (fst (Strategy_open s path oflags m))) = timer_of s.
Proof.
  destruct s as [|c]; simpl; unfold bind.
  - destruct (FDCacheBase_open path oflags m). reflexivity.
  - destruct (FDCache_open path oflags (head_ c) m) as [[fd h] m']. reflexivity.
Qed.

Lemma Strategy_close_timer s fd done (m : Machine W) :
  timer_of (snd (fst (Strategy_close s fd done m))) = timer_of s.
Proof.
  destruct s as [|c]; simpl; unfold bind.
  - destruct (FDCacheBase_close fd done m). reflexivity.
  - destruct (FDCache_close fd done (head_ c) m) as [[r h] m']. reflexivity.
Qed.

(** After [read] with a path, [fdcache_] points to the object that
    [getFDCache] chose. *)
Lemma read_object path offset buf n this (m : Machine W) :
  path <> EmptyString ->
  exists s, fdcache_ (out_object (read path offset buf n this m)) = Some s
    /\ timer_of s = timer_of (fst (fst (getFDCache this m))).
Proof.
  intros Hp. unfold read. rewrite (nonempty_path Hp). unfold bind at 1.
  destruct (getFDCache this m) as [[cache this1] m1]. simpl.
  unfold bind at 1.
  pose proof (Strategy_open_timer cache path O_RDONLY m1) as Ho.
  destruct (Strategy_open cache path O_RDONLY m1) as [[fd cache1] m2].
  simpl in Ho.
  destruct (fd <? 0).
  - unfold bind, sys_errno, ret. simpl. eauto.
  - unfold bind at 1.
    destruct (seek_and_read fd offset buf n m2) as [[[rv len] b] m3].
    unfold bind at 1.
    pose proof (Strategy_close_timer cache1 fd (done_flag rv len n) m3) as Hc.
    destruct (Strategy_close cache1 fd (done_flag rv len n) m3) as [[rc cache2] m4].
    simpl in Hc. unfold ret. simpl. exists cache2. split; congruence.
Qed.

End BackendFacts.

Section BackendProperties.

Context {W : Type} `{Posix W}.

(** C6.  [read] with a non-empty path and a descriptor from [open]: the
    status is [rv] and the length is [len] of the seek-and-read block, and
    the descriptor is handed to [close] with the flag
    [rv != 0 || len != inout_size].  When the seek fails, [rv] is [errno],
    nothing is read, and with a non-zero [errno] the flag is true.  When the
    seek succeeds and the read returns fewer bytes than asked for, the
    status is 0 and the flag is true.  When [errno] fits the 16-bit status,
    a failed call left it non-zero and the count fits 16 bits, the flag is
    the one of the specification computed from the returned values:
    status not 0, or returned length different from the requested one. *)
Theorem read_releases_with_done_flag (path : string) (offset : Z) (buf : list Z)
    (n : Z) (this : Backend) (m : Machine W) :
  path <> EmptyString ->
  let g := getFDCache this m in
  let o := Strategy_open (fst (fst g)) path O_RDONLY (snd g) in
  let fd := fst (fst o) in
  0 <= fd ->
  let sk := posix_lseek fd offset (world (snd o)) in
  let rd := posix_read fd n (snd sk) in
  let io := seek_and_read fd offset buf n (snd o) in
  let rv := fst (fst (fst io)) in
  let len := snd (fst (fst io)) in
  let rel := Strategy_close (snd (fst o)) fd (done_flag rv len n) (snd io) in
  read path offset buf n this m
  = ((to_int16 rv, snd (fst io), to_uint16 len, mkBackend (Some (snd (fst rel)))),
     snd rel)
  /\ (to_int32 (fst sk) < 0 ->
        rv = posix_errno (snd sk) /\ len = 0
        /\ snd io = after_call (snd o) (snd sk) (EvLseek fd offset (fst sk))
        /\ (-32768 <= posix_errno (snd sk) <= 32767 ->
              to_int16 rv = posix_errno (snd sk))
        /\ (posix_errno (snd sk) <> 0 -> done_flag rv len n = true))
  /\ (0 <= to_int32 (fst sk) -> 0 <= fst (fst rd) < n ->
        to_int16 rv = 0 /\ len = fst (fst rd) /\ done_flag rv len n = true)
  /\ (-32768 <= rv <= 32767 -> len <= 65535 -> (len < 0 -> rv <> 0) ->
        done_flag rv len n = spec_done (to_int16 rv) (to_uint16 len) n).
Proof.
  intros Hp g o fd Hfd sk rd io rv len rel.
  split; [apply read_run; assumption|].
  split; [|split].
  - intros Hneg. subst rv len. unfold io.
    rewrite (seek_and_read_seek_failed _ _ _ _ _ Hneg). fold sk.
    destruct sk as [r w]. simpl.
    split_all; try reflexivity.
    + apply to_int16_id.
    + intros He. unfold done_flag.
      destruct (posix_errno w =? 0) eqn:E; [apply Z.eqb_eq in E; contradiction|].
      reflexivity.
  - intros Hok Hshort. subst rv len. unfold io.
    rewrite (seek_and_read_seek_ok _ _ _ _ _ Hok). fold sk.
    destruct sk as [r w]. simpl in rd. fold rd.
    destruct rd as [[l d] w']. simpl in *.
    destruct (l <? 0) eqn:E; [apply Z.ltb_lt in E; lia|]. simpl.
    split_all; try reflexivity.
    unfold done_flag. simpl.
    destruct (l =? n) eqn:En; [apply Z.eqb_eq in En; lia|]. reflexivity.
  - intros Hrv Hlen Herr. unfold done_flag, spec_done.
    rewrite (to_int16_id Hrv).
    destruct (rv =? 0) eqn:E; [|reflexivity]. simpl.
    apply Z.eqb_eq in E.
    assert (0 <= len) by lia.
    rewrite to_uint16_id by lia. reflexivity.
Qed.

(** C9.  [read] with a non-empty path and a descriptor from [open]: when
    the seek fails the returned length is 0; when the seek succeeds and the
    read call returns a negative count, the returned length is that count
    modulo 65536, which is 65535 for a count of -1. *)
Theorem read_error_lengths (path : string) (offset : Z) (buf : list Z)
    (n : Z) (this : Backend) (m : Machine W) :
  path <> EmptyString ->
  let g := getFDCache this m in
  let o := Strategy_open (fst (fst g)) path O_RDONLY (snd g) in
  let fd := fst (fst o) in
  0 <= fd ->
  let sk := posix_lseek fd offset (world (snd o)) in
  let rd := posix_read fd n (snd sk) in
  let res := read path offset buf n this m in
  (to_int32 (fst sk) < 0 -> read_size res = 0)
  /\ (0 <= to_int32 (fst sk) -> fst (fst rd) < 0 ->
        read_size res = fst (fst rd) mod 65536
        /\ (fst (fst rd) = -1 -> read_size res = 65535)).
Proof.
  intros Hp g o fd Hfd sk rd res. subst res.
  rewrite (read_run offset buf n this m Hp Hfd).
  fold g. fold o. fold fd. unfold read_size. simpl.
  split.
  - intros Hneg. rewrite (seek_and_read_seek_failed _ _ _ _ _ Hneg). fold sk.
    destruct sk as [r w]. reflexivity.
  - intros Hok Hfail. rewrite (seek_and_read_seek_ok _ _ _ _ _ Hok). fold sk.
    destruct sk as [r w]. simpl in rd. fold rd.
    destruct rd as [[l d] w']. simpl in *.
    split; [reflexivity|]. intros ->. reflexivity.
Qed.

(** C7.  [getInfo] with the empty path returns INVALID_VALUE, assigns
    nothing and makes no call.  With a non-empty path it makes one [stat]
    call.  When that fails, the status is [errno] (narrowed to 16 bits,
    which changes no value that fits) and nothing is assigned.  When it
    succeeds, the status is 0, the size is [st_size], and the flags are
    READABLE together with DIRECTORY for a directory, with FILE for a
    regular file, and with nothing else for any other type. *)
Theorem getInfo_describes (path : string) (size flags : Z) (this : Backend)
    (m : Machine W) :
  getInfo EmptyString size flags this m
    = ((Error.INVALID_VALUE, size, flags, this), m)
  /\ (path <> EmptyString ->
      let st := posix_stat path (world m) in
      let r := fst (fst st) in
      let sb := snd (fst st) in
      let m' := after_call m (snd st) (EvStat path r) in
      let res := getInfo path size flags this m in
      snd res = m'
      /\ (r < 0 ->
            res = ((to_int16 (posix_errno (snd st)), size, flags, this), m')
            /\ (-32768 <= posix_errno (snd st) <= 32767 ->
                  out_status res = posix_errno (snd st)))
      /\ (0 <= r ->
            res = ((0, to_uint64 (st_size sb), spec_flags (st_mode sb), this), m')
            /\ (0 <= st_size sb < 18446744073709551616 -> info_size res = st_size sb)
            /\ has_flag (info_flags res) EntryType.FLAG_READABLE = true
            /\ has_flag (info_flags res) EntryType.FLAG_DIRECTORY = S_ISDIR (st_mode sb)
            /\ has_flag (info_flags res) EntryType.FLAG_FILE = S_ISREG (st_mode sb)
            /\ S_ISDIR (st_mode sb) && S_ISREG (st_mode sb) = false
            /\ (info_flags res = EntryType.FLAG_READABLE
                \/ info_flags res
                   = Z.lor EntryType.FLAG_READABLE EntryType.FLAG_FILE
                \/ info_flags res
                   = Z.lor EntryType.FLAG_READABLE EntryType.FLAG_DIRECTORY))).
Proof.
  split; [reflexivity|].
  intros Hp st r sb m' res.
  assert (res = (let '((r0, sb0), w') := st in
                 if r0 <? 0 then
                   ((to_int16 (posix_errno w'), size, flags, this),
                    after_call m w' (EvStat path r0))
                 else
                   ((0, to_uint64 (st_size sb0), spec_flags (st_mode sb0), this),
                    after_call m w' (EvStat path r0)))) as Hres.
  { subst res. unfold getInfo. rewrite (nonempty_path Hp). run_monad.
    fold st. destruct st as [[r0 sb0] w']. simpl.
    destruct (r0 <? 0); [reflexivity|].
    unfold spec_flags, to_uint8, to_int16, to_signed.
    destruct (S_ISDIR (st_mode sb0)); [reflexivity|].
    destruct (S_ISREG (st_mode sb0)); reflexivity. }
  subst r sb m'. destruct st as [[r0 sb0] w']. simpl in *.
  split; [rewrite Hres; destruct (r0 <? 0); reflexivity|]. split.
  - intros Hneg. apply Z.ltb_lt in Hneg. rewrite Hneg in Hres.
    split; [assumption|]. intros He.
    rewrite Hres. unfold out_status. simpl. apply to_int16_id. assumption.
  - intros Hok. destruct (r0 <? 0) eqn:E; [apply Z.ltb_lt in E; lia|].
    rewrite Hres. clear Hres. unfold info_size, info_flags. cbn [fst snd].
    assert (S_ISDIR (st_mode sb0) && S_ISREG (st_mode sb0) = false) as Hexcl.
    { unfold S_ISDIR, S_ISREG.
      destruct (Z.land (st_mode sb0) S_IFMT =? S_IFDIR) eqn:Ed; [|reflexivity].
      apply Z.eqb_eq in Ed. rewrite Ed. reflexivity. }
    split; [reflexivity|]. split; [apply to_uint64_id|].
    unfold spec_flags.
    destruct (S_ISDIR (st_mode sb0)), (S_ISREG (st_mode sb0));
      try discriminate Hexcl; vm_compute; intuition congruence.
Qed.

(** C10.  [getInfo] hands the object back as it got it and its results do
    not depend on the object; in particular [fdcache_] and the list behind
    it are untouched, for every path.  The constructor leaves [fdcache_]
    null.  The first [read] with a non-empty path sets it: to an [FDCache]
    whose timer runs with a period of 60000 ms when [new] succeeds, to the
    fallback otherwise.  [read] with the empty path leaves the object as it
    was. *)
Theorem getInfo_leaves_cache_alone (path : string) (size flags : Z)
    (offset : Z) (buf : list Z) (n : Z) (this this' : Backend) (m : Machine W) :
  out_object (getInfo path size flags this m) = this
  /\ fst (fst (getInfo path size flags this m))
     = fst (fst (getInfo path size flags this' m))
  /\ snd (getInfo path size flags this m) = snd (getInfo path size flags this' m)
  /\ fdcache_ Backend_new = None
  /\ out_object (read EmptyString offset buf n this m) = this
  /\ (path <> EmptyString -> fdcache_ this = None ->
      exists s, fdcache_ (out_object (read path offset buf n this m)) = Some s
        /\ (fst (heap_new (world m)) = true ->
              exists c, s = Cached c
                /\ timer_period_ms c = Some (GarbageCollectionSeconds * 1000))
        /\ (fst (heap_new (world m)) = false -> s = Fallback)).
Proof.
  assert (forall t : Backend,
             getInfo path size flags t m =
             ((fst (fst (getInfo path size flags Backend_new m)), t),
              snd (getInfo path size flags Backend_new m))) as Hframe.
  { intros t. unfold getInfo.
    destruct (0 <? Z.of_nat (String.length path)); [|reflexivity].
    run_monad. destruct (posix_stat path (world m)) as [[r sb] w']. simpl.
    destruct (r <? 0); reflexivity. }
  split_all.
  - rewrite Hframe. reflexivity.
  - rewrite (Hframe this), (Hframe this'). reflexivity.
  - rewrite (Hframe this), (Hframe this'). reflexivity.
  - reflexivity.
  - reflexivity.
  - intros Hp Hnull.
    destruct (read_object offset buf n this m Hp) as (s & Hs & Ht).
    exists s. split; [assumption|].
    unfold getFDCache in Ht. rewrite Hnull in Ht. revert Ht. run_monad.
    destruct (heap_new (world m)) as [a w1]. simpl.
    destruct a; simpl; intros Ht.
    + split; [|discriminate]. intros _.
      destruct s as [|c]; [discriminate|].
      exists c. split; [reflexivity|]. simpl in Ht. congruence.
    + split; [discriminate|]. intros _.
      destruct s as [|c]; [reflexivity|discriminate].
Qed.

End BackendProperties.

(** * The properties on concrete runs *)

Section Witnesses.

Import Scenario.

Lemma release_uncached_closes_directly_witness :
  ~ In 5 (map fd_ head_fg)
  /\ FDCache_close 5 true head_fg (snd uncached_open)
     = (let (r, w') := posix_close 5 (world (snd uncached_open)) in
        ((r, head_fg), after_call (snd uncached_open) w' (EvClose 5 r)))
  /\ fst (FDCache_close 5 true head_fg (snd uncached_open)) = (0, head_fg)
  /\ closed_fds (trace (snd (FDCache_close 5 true head_fg (snd uncached_open)))) = [5].
Proof.
  assert (~ In 5 (map fd_ head_fg)) as Hn
    by (vm_compute; intuition discriminate).
  pose proof (@release_uncached_closes_directly _ _ 5 true head_fg
                (snd uncached_open) Hn) as T.
  split; [exact Hn|]. split; [exact T|].
  rewrite T. split; reflexivity.
Defined.

Lemma open_allocation_failure_witness :
  find f O_RDONLY [] = None
  /\ posix_open f O_RDONLY (Sim.boot 1) = (3, snd (Sim.open f O_RDONLY (Sim.boot 1)))
  /\ fst (heap_new (snd (Sim.open f O_RDONLY (Sim.boot 1)))) = true
  /\ fst (heap_strdup f
            (snd (heap_new (snd (Sim.open f O_RDONLY (Sim.boot 1)))))) = false
  /\ fst (FDCache_open f O_RDONLY [] (Sim.start 1 100)) = (3, [])
  /\ trace (snd (FDCache_open f O_RDONLY [] (Sim.start 1 100)))
     = [EvOpen f O_RDONLY 3].
Proof.
  assert (0 <= 3) as Hfd by lia.
  pose proof (@open_allocation_failure_returns_uncached _ _ f O_RDONLY []
                (Sim.start 1 100) 3 (snd (Sim.open f O_RDONLY (Sim.boot 1)))
                eq_refl eq_refl Hfd (or_intror (conj eq_refl eq_refl))) as T.
  cbv zeta in T. destruct T as (T1 & _ & T2 & _ & T3).
  do 4 (split; [reflexivity|]). split.
  - rewrite (surjective_pairing (fst (FDCache_open f O_RDONLY [] (Sim.start 1 100)))).
    rewrite T1, T2. reflexivity.
  - exact T3.
Defined.

Lemma done_release_purges_entry_witness :
  unique_keys head_fg
  /\ find_fd 3 head_fg = Some (1%nat, item_f)
  /\ fst (FDCache_close 3 true head_fg m_fg)
     = (0, [mkItem 100 4 O_RDONLY (Some g)])
  /\ closed_fds (trace (snd (FDCache_close 3 true head_fg m_fg))) = [3]
  /\ find f O_RDONLY (snd (fst (FDCache_close 3 true head_fg m_fg))) = None
  /\ trace (snd (FDCache_open f O_RDONLY
                   (snd (fst (FDCache_close 3 true head_fg m_fg)))
                   (snd (FDCache_close 3 true head_fg m_fg))))
     = [EvOpen f O_RDONLY 3; EvOpen g O_RDONLY 4; EvClose 3 0; EvOpen f O_RDONLY 3].
Proof.
  assert (unique_keys head_fg) as Hu.
  { unfold unique_keys. vm_compute.
    repeat constructor; simpl; intuition discriminate. }
  assert (find_fd (fd_ item_f) head_fg = Some (1%nat, item_f)) as Hf by reflexivity.
  pose proof (@done_release_purges_entry _ _ head_fg m_fg item_f 1%nat Hu Hf) as T.
  cbv zeta in T. change (fd_ item_f) with 3 in T.
  destruct T as (T1 & _ & _ & _ & T2 & _ & T3).
  destruct (T3 f O_RDONLY eq_refl) as (T4 & T5).
  split; [exact Hu|]. split; [exact Hf|]. split_all.
  - rewrite (proj1 (T1 true)). reflexivity.
  - rewrite T2. reflexivity.
  - exact T4.
  - destruct (posix_open f O_RDONLY _) as [fd2 w2] eqn:Ho in T5.
    destruct T5 as (_ & T5). rewrite T5, T2.
    vm_compute in Ho. injection Ho as <- _. reflexivity.
Defined.

Lemma hit_stability_witness :
  unique_keys []
  /\ cached f O_RDONLY (snd (fst first_open))
  /\ cached f O_RDONLY (fst (after between))
  /\ fst (fst first_open) = 3
  /\ fst (fst (FDCache_open f O_RDONLY (fst (after between)) (snd (after between)))) = 3
  /\ snd (FDCache_open f O_RDONLY (fst (after between)) (snd (after between)))
     = snd (after between)
  /\ ~ cached f O_RDONLY (fst (after abandoned))
  /\ trace (snd (FDCache_open f O_RDONLY (fst (after abandoned)) (snd (after abandoned))))
     = trace (snd (after abandoned)) ++ [EvOpen f O_RDONLY 3].
Proof.
  assert (unique_keys []) as Hu by constructor.
  assert (cached f O_RDONLY (snd (fst first_open))) as Hc by by_compute.
  assert (cached f O_RDONLY (fst (after between))) as Hc2 by by_compute.
  assert (~ cached f O_RDONLY (fst (after abandoned))) as Hnc.
  { intros C. apply C. reflexivity. }
  pose proof (@hit_stability _ _ f O_RDONLY [] (Sim.start 10 100) between
                Hu Hc eq_refl) as T.
  pose proof (@hit_stability _ _ f O_RDONLY [] (Sim.start 10 100) abandoned
                Hu Hc eq_refl) as T'.
  cbv zeta in T, T'. destruct T as [T _]. destruct T' as [_ T'].
  destruct (T Hc2) as [T1 T2]. specialize (T' Hnc).
  destruct (posix_open f O_RDONLY _) as [fd2 w2] eqn:Ho in T'.
  destruct T' as [_ T3].
  do 3 (split; [assumption|]). split; [reflexivity|].
  split; [exact T1|]. split; [exact T2|]. split; [exact Hnc|].
  unfold after, first_open. rewrite T3.
  vm_compute in Ho. injection Ho as <- _. reflexivity.
Defined.

Lemma read_releases_with_done_flag_witness :
  f <> EmptyString
  /\ out_status (read f 8 [] 4 Backend_new (Sim.start 10 100)) = 0
  /\ read_size (read f 8 [] 4 Backend_new (Sim.start 10 100)) = 2
  /\ closed_fds (trace (snd (read f 8 [] 4 Backend_new (Sim.start 10 100)))) = [3]
  /\ done_flag 0 2 4 = spec_done 0 2 4
  /\ out_status (read f (-1) [] 4 Backend_new (Sim.start 10 100)) = Sim.EINVAL
  /\ closed_fds (trace (snd (read f (-1) [] 4 Backend_new (Sim.start 10 100)))) = [3].
Proof.
  assert (f <> EmptyString) as Hp by discriminate.
  assert (0 <= 3) as Hfd by lia.
  pose proof (@read_releases_with_done_flag _ _ f 8 [] 4 Backend_new
                (Sim.start 10 100) Hp Hfd) as T.
  pose proof (@read_releases_with_done_flag _ _ f (-1) [] 4 Backend_new
                (Sim.start 10 100) Hp Hfd) as T'.
  cbv zeta in T, T'.
  destruct T as (T1 & _ & T2 & T3). destruct T' as (T1' & T2' & _).
  split; [exact Hp|].
  assert (0 <= 8 /\ 0 <= 2 < 4) as [Hok Hshort] by lia.
  destruct (T2 Hok Hshort) as (S1 & S2 & S3).
  assert (-32768 <= 0 <= 32767 /\ 2 <= 65535) as [Hrv Hlen] by lia.
  assert (2 < 0 -> 0 <> 0) as Herr by lia.
  pose proof (T3 Hrv Hlen Herr) as S4.
  assert (-1 < 0) as Hneg by lia.
  destruct (T2' Hneg) as (F1 & F2 & F3 & F4 & F5).
  split_all.
  - rewrite T1. exact S1.
  - rewrite T1. reflexivity.
  - rewrite T1. reflexivity.
  - exact S4.
  - rewrite T1'. unfold out_status. cbn [fst]. rewrite F4; [reflexivity|].
    vm_compute. split; discriminate.
  - rewrite T1'. reflexivity.
Defined.

Lemma read_error_lengths_witness :
  f <> EmptyString
  /\ fst (fst (Sim.read 3 4 (snd (Sim.open "/tmp" O_RDONLY (Sim.boot 8))))) = -1
  /\ read_size (read "/tmp" 0 [] 4 Backend_new (Sim.start 10 100)) = 65535
  /\ fst (Sim.lseek 3 (-1) (snd (Sim.open f O_RDONLY (Sim.boot 8)))) = -1
  /\ read_size (read f (-1) [] 4 Backend_new (Sim.start 10 100)) = 0.
Proof.
  assert (f <> EmptyString) as Hp by discriminate.
  assert ("/tmp"%string <> EmptyString) as Hp' by discriminate.
  assert (0 <= 3) as Hfd by lia.
  pose proof (@read_error_lengths _ _ "/tmp" 0 [] 4 Backend_new
                (Sim.start 10 100) Hp' Hfd) as T.
  pose proof (@read_error_lengths _ _ f (-1) [] 4 Backend_new
                (Sim.start 10 100) Hp Hfd) as T'.
  cbv zeta in T, T'. destruct T as [_ T]. destruct T' as [T' _].
  assert (0 <= 0 /\ -1 < 0) as [Hok Hfail] by lia.
  destruct (T Hok Hfail) as [_ T2].
  split; [exact Hp|]. split; [reflexivity|]. split; [apply T2; reflexivity|].
  split; [reflexivity|]. apply T'. exact Hfail.
Defined.

Lemma at_most_one_entry_per_key_witness :
  (entries_for f O_RDONLY (fst (run history [] (Sim.start 10 100))) <= 1)%nat
  /\ (entries_for g O_RDONLY (fst (run history [] (Sim.start 10 100))) <= 1)%nat
  /\ (entries_for f O_RDONLY (fst (after between)) <= 1)%nat.
Proof.
  split; [|split].
  - exact (@at_most_one_entry_per_key _ _ history (Sim.start 10 100) f O_RDONLY).
  - exact (@at_most_one_entry_per_key _ _ history (Sim.start 10 100) g O_RDONLY).
  - exact (@at_most_one_entry_per_key _ _ (OpOpen f O_RDONLY :: between)
             (Sim.start 10 100) f O_RDONLY).
Defined.

Lemma sweep_removes_exactly_stale_witness :
  fst mixed = [item_g; item_f]
  /\ clock (snd mixed) = 108
  /\ fst (removeExpired (fst mixed) (snd mixed)) = [item_g]
  /\ closed_fds (skipn 2 (trace (snd (removeExpired (fst mixed) (snd mixed))))) = [3]
  /\ removeExpired (fst (removeExpired (fst mixed) (snd mixed)))
                   (snd (removeExpired (fst mixed) (snd mixed)))
     = removeExpired (fst mixed) (snd mixed)
  /\ removeExpired [] (snd mixed) = ([], snd mixed).
Proof.
  pose proof (@sweep_removes_exactly_stale _ _ (fst mixed) (snd mixed)) as T.
  cbv zeta in T.
  destruct T as (T1 & _ & _ & _ & T2 & _ & _ & T3 & T4 & _).
  do 2 (split; [reflexivity|]). split_all.
  - rewrite T1. reflexivity.
  - rewrite T2. reflexivity.
  - exact T3.
  - exact T4.
Defined.

Lemma getInfo_describes_witness :
  fst (getInfo EmptyString 0 0 Backend_new (Sim.start 10 100))
    = (Error.INVALID_VALUE, 0, 0, Backend_new)
  /\ fst (getInfo "/tmp" 0 0 Backend_new (Sim.start 10 100))
     = (0, 4096, 10, Backend_new)
  /\ fst (getInfo f 0 0 Backend_new (Sim.start 10 100)) = (0, 10, 9, Backend_new)
  /\ fst (getInfo "/tmp/p" 0 0 Backend_new (Sim.start 10 100)) = (0, 0, 8, Backend_new)
  /\ fst (getInfo "/tmp/missing" 0 0 Backend_new (Sim.start 10 100))
     = (Sim.ENOENT, 0, 0, Backend_new).
Proof.
  pose proof (fun p => @getInfo_describes _ _ p 0 0 Backend_new (Sim.start 10 100))
    as T.
  assert (0 <= 0 /\ -1 < 0) as [Hok Hfail] by lia.
  split_all.
  - rewrite (proj1 (T f)). reflexivity.
  - destruct (proj2 (T "/tmp"%string) ltac:(discriminate)) as (_ & _ & S).
    rewrite (proj1 (S Hok)). reflexivity.
  - destruct (proj2 (T f) ltac:(discriminate)) as (_ & _ & S).
    rewrite (proj1 (S Hok)). reflexivity.
  - destruct (proj2 (T "/tmp/p"%string) ltac:(discriminate)) as (_ & _ & S).
    rewrite (proj1 (S Hok)). reflexivity.
  - destruct (proj2 (T "/tmp/missing"%string) ltac:(discriminate)) as (_ & S & _).
    rewrite (proj1 (S Hfail)). reflexivity.
Defined.

Lemma getInfo_leaves_cache_alone_witness :
  out_object (getInfo f 0 0 (out_object serving) (snd serving)) = out_object serving
  /\ fdcache_ (out_object serving)
     = Some (Cached (mkCache [mkItem 100 3 O_RDONLY (Some f)] (Some 60000)))
  /\ fdcache_ (out_object (getInfo f 0 0 Backend_new (Sim.start 10 100))) = None
  /\ (exists c, fdcache_ (out_object serving) = Some (Cached c)
               /\ timer_period_ms c = Some 60000).
Proof.
  pose proof (@getInfo_leaves_cache_alone _ _ f 0 0 0 [] 4
                (out_object serving) Backend_new (snd serving)) as T.
  pose proof (@getInfo_leaves_cache_alone _ _ f 0 0 0 [] 4
                Backend_new Backend_new (Sim.start 10 100)) as T'.
  destruct T as (T1 & _). destruct T' as (T1' & _ & _ & T2' & _ & T3').
  split; [exact T1|]. split; [reflexivity|]. split; [rewrite T1'; exact T2'|].
  destruct (T3' ltac:(discriminate) eq_refl) as (s & Hs & Hc & _).
  destruct (Hc eq_refl) as (c & -> & Ht).
  exists c. split; assumption.
Defined.

End Witnesses.

(** * Further properties of the cache and of the back end *)

Section TraceFacts.

Context {W : Type} `{Posix W}.

Lemma closed_fds_app t1 t2 : closed_fds (t1 ++ t2) = closed_fds t1 ++ closed_fds t2.
Proof.
  induction t1 as [|e t1 IH]; simpl; [reflexivity|].
  destruct e; simpl; rewrite IH; reflexivity.
Qed.

Lemma clear_run l (m : Machine W) : clear l m = (tt, close_all (map fd_ l) m).
Proof.
  revert m. induction l as [|it next IH]; intros m; [reflexivity|].
  simpl. unfold bind, FDCacheBase_close.
  destruct (sys_close (fd_ it) m) as [r m']. apply IH.
Qed.

(** What each member call does to the trace: it only ever appends. *)
Lemma FDCache_open_trace path oflags head (m : Machine W) :
  exists d, trace (snd (FDCache_open path oflags head m)) = trace m ++ d
    /\ closed_fds d = [].
Proof.
  destruct (find path oflags head) as [[i x]|] eqn:E.
  - rewrite (FDCache_open_hit _ _ _ m E). exists []. simpl.
    rewrite app_nil_r. auto.
  - destruct (posix_open path oflags (world m)) as [fd w1] eqn:Ho.
    destruct (FDCache_open_miss_calls_open _ _ _ m E Ho) as [_ Ht].
    eexists. split; [exact Ht | reflexivity].
Qed.

Lemma FDCache_close_trace fd done head (m : Machine W) :
  exists d, trace (snd (FDCache_close fd done head m)) = trace m ++ d.
Proof.
  destruct (find_fd fd head) as [[i x]|] eqn:E.
  - rewrite (FDCache_close_found _ done _ m E). simpl.
    rewrite removeExpired_run. simpl. rewrite close_all_trace. eauto.
  - rewrite (FDCache_close_missing _ done _ m E).
    destruct (posix_close fd (world m)). simpl. eauto.
Qed.

End TraceFacts.

Section ItemInvariants.

Context {W : Type} `{Posix W}.

(** A property of items that may depend on the trace, that survives a new
    stamp and any growth of the trace, and that holds of an item built from
    the result of a successful [::open] just recorded, for the open flags
    [F] that callers use. *)
Variable F : Z -> Prop.
Variable P : list Event -> FDCacheItem -> Prop.
Hypothesis P_stamp : forall t now x, P t x -> P t (set_access now x).
Hypothesis P_grow : forall t d x, P t x -> P (t ++ d) x.
Hypothesis P_new : forall t path oflags fd now,
    F oflags -> 0 <= fd ->
    P (t ++ [EvOpen path oflags fd]) (mkItem now fd oflags (Some path)).


Lemma Forall_at_ptr (Q : FDCacheItem -> Prop) f l i :
  (forall x, Q x -> Q (f x)) -> Forall Q l -> Forall Q (at_ptr i f l).
Proof.
  intros Hf. revert i. induction l as [|it next IH]; intros i Hl.
  - destruct i; constructor.
  - inversion Hl; subst. destruct i; simpl; constructor; auto.
Qed.

Lemma Forall_grow t d l : Forall (P t) l -> Forall (P (t ++ d)) l.
Proof. intros Hl. eapply Forall_impl; [|exact Hl]. intros x. apply P_grow. Qed.

Lemma item_invariant_sweep head (m : Machine W) :
  Forall (P (trace m)) head ->
  Forall (P (trace (snd (removeExpired head m)))) (fst (removeExpired head m)).
Proof.
  intros Hl. rewrite removeExpired_run. simpl. rewrite close_all_trace.
  apply Forall_grow. apply Forall_forall. intros x Hx.
  apply filter_In in Hx as [Hx _].
  eapply Forall_forall in Hl; eassumption.
Qed.

Lemma item_invariant_open path oflags head (m : Machine W) :
  F oflags ->
  Forall (P (trace m)) head ->
  Forall (P (trace (snd (FDCache_open path oflags head m))))
         (snd (fst (FDCache_open path oflags head m))).
Proof.
  intros HF Hl. destruct (find path oflags head) as [[i x]|] eqn:E.
  - rewrite (FDCache_open_hit _ _ _ m E). simpl.
    apply find_Some in E as [Hn _].
    apply Forall_forall. intros y Hy.
    apply at_ptr_In in Hy as [Hy|(x0 & Hn0 & ->)].
    + eapply Forall_forall in Hl; eassumption.
    + apply P_stamp. eapply Forall_forall in Hl; [eassumption|].
      eapply nth_error_In; eassumption.
  - rewrite (FDCache_open_miss _ _ _ m E).
    destruct (posix_open path oflags (world m)) as [fd w1].
    destruct (fd <? 0) eqn:Efd; [apply Forall_grow; assumption|].
    apply Z.ltb_ge in Efd.
    destruct (heap_new w1) as [[|] w2]; [|apply Forall_grow; assumption].
    destruct (heap_strdup path w2) as [[|] w3]; [|apply Forall_grow; assumption].
    simpl. constructor; [apply P_new; assumption | apply Forall_grow; assumption].
Qed.

Lemma item_invariant_close fd done head (m : Machine W) :
  Forall (P (trace m)) head ->
  Forall (P (trace (snd (FDCache_close fd done head m))))
         (snd (fst (FDCache_close fd done head m))).
Proof.
  intros Hl. destruct (find_fd fd head) as [[i x]|] eqn:E.
  - rewrite (FDCache_close_found _ done _ m E). simpl.
    apply item_invariant_sweep.
    destruct done; [|assumption].
    apply Forall_at_ptr; [|assumption].
    intros y Hy. apply P_stamp. assumption.
  - rewrite (FDCache_close_missing _ done _ m E).
    destruct (posix_close fd (world m)). simpl. apply Forall_grow. assumption.
Qed.

Lemma item_invariant_step o head (m : Machine W) :
  opens_with F o ->
  Forall (P (trace m)) head ->
  Forall (P (trace (snd (step o head m)))) (fst (step o head m)).
Proof.
  intros HF Hl. destruct o as [path oflags|fd done| |t|f]; simpl; try assumption.
  - unfold bind. pose proof (item_invariant_open path m HF Hl) as Ho.
    destruct (FDCache_open path oflags head m) as [[fd h] m']. assumption.
  - unfold bind. pose proof (item_invariant_close fd done m Hl) as Hc.
    destruct (FDCache_close fd done head m) as [[r h] m']. assumption.
  - apply item_invariant_sweep. assumption.
Qed.

Lemma item_invariant_run ops head (m : Machine W) :
  Forall (opens_with F) ops ->
  Forall (P (trace m)) head ->
  Forall (P (trace (snd (run ops head m)))) (fst (run ops head m)).
Proof.
  revert head m. induction ops as [|o ops IH]; simpl; intros head m HF Hl.
  - assumption.
  - inversion HF as [|? ? Ho Hops]; subst.
    unfold bind. pose proof (item_invariant_step o m Ho Hl) as Hs.
    destruct (step o head m) as [h m']. apply IH; assumption.
Qed.

End ItemInvariants.

Section Provenance.

Context {W : Type} `{Posix W}.

(** X1.  Along any history from the empty list, every linked item has a
    path copy and a descriptor that is not negative: a failed [::open] or a
    failed [strdup] never leaves an item behind, so [equals] never meets a
    null path and a sweep never closes a negative descriptor. *)
Theorem linked_items_are_well_formed (ops : list Op) (m : Machine W) :
  Forall well_formed (fst (run ops [] m)).
Proof.
  apply (@item_invariant_run _ _ (fun _ => True) (fun _ it => well_formed it)).
  - intros t now x Hx. exact Hx.
  - intros t d x Hx. exact Hx.
  - intros t path oflags fd now _ Hfd. split; [reflexivity | exact Hfd].
  - apply Forall_forall. intros [] _; exact I.
  - constructor.
Qed.



End Provenance.

Section Teardown.

Context {W : Type} `{Posix W}.

Lemma filter_split_Permutation {A} (p : A -> bool) (l : list A) :
  Permutation (filter p l ++ filter (fun x => negb (p x)) l) l.
Proof.
  induction l as [|a l IH]; simpl; [constructor|].
  destruct (p a); simpl.
  - constructor. assumption.
  - apply Permutation_sym, Permutation_cons_app, Permutation_sym. assumption.
Qed.

Lemma closed_fds_length t :
  forallb is_close_event t = true -> List.length (closed_fds t) = List.length t.
Proof.
  induction t as [|e t IH]; [reflexivity|]. simpl. intros Hall.
  apply andb_true_iff in Hall as [He Ht].
  destruct e; try discriminate. simpl. f_equal. apply IH. assumption.
Qed.

(** X3.  Destroying the back end closes the descriptor of every item of its
    cache, each once and in list order, and makes no other call; the object
    is left without a cache.  A back end on the fallback, or one that was
    never used, makes no call at all, and the pointer to the fallback is
    left in place. *)
Theorem destructor_closes_cached_descriptors (this : Backend) (m : Machine W) :
  let r := Backend_delete this m in
  let d := close_events (map fd_ (cache_of this)) (world m) in
  trace (snd r) = trace m ++ d
  /\ closed_fds d = map fd_ (cache_of this)
  /\ forallb is_close_event d = true
  /\ clock (snd r) = clock m
  /\ cache_of (fst r) = []
  /\ (fdcache_ this = Some Fallback -> fst r = this /\ snd r = m)
  /\ (fdcache_ this = None -> snd r = m)
  /\ (fdcache_ this <> Some Fallback -> fdcache_ (fst r) = None).
Proof.
  intros r d. subst r d. unfold Backend_delete, cache_of.
  destruct this as [[[|c]|]]; simpl.
  - rewrite app_nil_r. split_all; try reflexivity; try discriminate.
    + intros _. split; reflexivity.
    + intros Hn. contradiction Hn. reflexivity.
  - unfold bind, FDCache_delete. rewrite clear_run. simpl.
    split_all; try discriminate; try (intros _; reflexivity).
    + apply close_all_trace.
    + apply closed_fds_close_events.
    + apply close_events_only_close.
    + apply close_all_clock.
    + reflexivity.
  - rewrite app_nil_r.
    split_all; try reflexivity; try discriminate; try (intros _; reflexivity).
Qed.

(** X4.  A sweep followed by [clear] calls [close] once for every item that
    was linked before the sweep, whether the sweep or [clear] reached it:
    the descriptors closed are those of the list, up to order, and nothing
    but [close] is called. *)
Theorem sweep_then_clear_closes_each_once (head : list FDCacheItem)
    (m : Machine W) :
  let s := removeExpired head m in
  let c := clear (fst s) (snd s) in
  exists d, trace (snd c) = trace m ++ d
    /\ forallb is_close_event d = true
    /\ Permutation (closed_fds d) (map fd_ head)
    /\ List.length d = List.length head.
Proof.
  intros s c. subst c s. rewrite removeExpired_run. simpl.
  rewrite clear_run. simpl.
  set (removed := filter (expired_at (clock m)) head).
  set (kept := filter (fun it => negb (expired_at (clock m) it)) head).
  set (m1 := close_all (map fd_ removed) m).
  exists (close_events (map fd_ removed) (world m)
          ++ close_events (map fd_ kept) (world m1)).
  assert (Permutation
            (closed_fds (close_events (map fd_ removed) (world m)
                         ++ close_events (map fd_ kept) (world m1)))
            (map fd_ head)) as Hperm.
  { rewrite closed_fds_app, !closed_fds_close_events, <- map_app.
    apply Permutation_map. apply filter_split_Permutation. }
  assert (forallb is_close_event
            (close_events (map fd_ removed) (world m)
             ++ close_events (map fd_ kept) (world m1)) = true) as Hall
    by (rewrite forallb_app, !close_events_only_close; reflexivity).
  split_all.
  - rewrite close_all_trace. unfold m1. rewrite close_all_trace.
    symmetry. apply app_assoc.
  - exact Hall.
  - exact Hperm.
  - rewrite <- (closed_fds_length _ Hall), <- (length_map fd_ head).
    apply Permutation_length. exact Hperm.
Qed.

End Teardown.

Section ReadPaths.

Context {W : Type} `{Posix W}.

Lemma getFDCache_machine this (m : Machine W) :
  trace (snd (getFDCache this m)) = trace m
  /\ clock (snd (getFDCache this m)) = clock m.
Proof.
  unfold getFDCache. destruct (fdcache_ this); [split; reflexivity|].
  run_monad. destruct (heap_new (world m)). simpl.
  rewrite app_nil_r. split; reflexivity.
Qed.

Lemma getFDCache_head this (m : Machine W) :
  head_of (fst (fst (getFDCache this m))) = cache_of this.
Proof.
  unfold getFDCache, cache_of. destruct (fdcache_ this) as [[|c]|]; try reflexivity.
  run_monad. destruct (heap_new (world m)) as [[|] w]; reflexivity.
Qed.

Lemma getFDCache_same this s (m : Machine W) :
  fdcache_ this = Some s -> getFDCache this m = ((s, this), m).
Proof. intros E. unfold getFDCache. rewrite E. reflexivity. Qed.

(** A negative result of [open] through a strategy whose items are well
    formed comes from the system call: the strategy is as before. *)
Lemma Strategy_open_failure s path oflags (m : Machine W) :
  fst (fst (Strategy_open s path oflags m)) < 0 ->
  Forall well_formed (head_of s) ->
  trace (snd (Strategy_open s path oflags m))
    = trace m ++ [EvOpen path oflags (fst (fst (Strategy_open s path oflags m)))]
  /\ snd (fst (Strategy_open s path oflags m)) = s.
Proof.
  destruct s as [|c]; simpl.
  - run_monad. destruct (posix_open path oflags (world m)). simpl. auto.
  - unfold bind. intros Hneg Hwf.
    destruct (find path oflags (head_ c)) as [[i x]|] eqn:E.
    + rewrite (FDCache_open_hit _ _ _ m E) in *. simpl in *.
      apply find_Some in E as [Hn _].
      eapply Forall_forall in Hwf; [|eapply nth_error_In; eassumption].
      destruct Hwf as [_ Hfd]. lia.
    + rewrite (FDCache_open_miss _ _ _ m E) in *.
      destruct (posix_open path oflags (world m)) as [fd w1].
      destruct (fd <? 0) eqn:Efd.
      * simpl. destruct c. split; reflexivity.
      * apply Z.ltb_ge in Efd.
        destruct (heap_new w1) as [[|] w2];
          [destruct (heap_strdup path w2) as [[|] w3]|]; simpl in Hneg; lia.
Qed.

Lemma Strategy_open_events s path oflags (m : Machine W) :
  trace (snd (Strategy_open s path oflags m)) = trace m
  \/ trace (snd (Strategy_open s path oflags m))
     = trace m ++ [EvOpen path oflags (fst (fst (Strategy_open s path oflags m)))].
Proof.
  destruct s as [|c]; simpl.
  - right. run_monad. destruct (posix_open path oflags (world m)). reflexivity.
  - unfold bind. destruct (find path oflags (head_ c)) as [[i x]|] eqn:E.
    + left. rewrite (FDCache_open_hit _ _ _ m E). reflexivity.
    + right. destruct (posix_open path oflags (world m)) as [fd w1] eqn:Ho.
      destruct (FDCache_open_miss_calls_open _ _ _ m E Ho) as [Hfd Ht].
      destruct (FDCache_open path oflags (head_ c) m) as [[fd' h] m'].
      simpl in *. subst. assumption.
Qed.

(** X5.  [read] with a path whose [open] comes back negative returns
    [errno] as status and leaves the buffer and [inout_size] as they were;
    no seek, read or close is made: the trace grows by at most the failed
    [::open].  When the items of the cache are well formed the failure is
    that of the system call, and the strategy and its list are unchanged. *)
Theorem read_reports_open_failure (path : string) (offset : Z) (buf : list Z)
    (n : Z) (this : Backend) (m : Machine W) :
  path <> EmptyString ->
  let g := getFDCache this m in
  let o := Strategy_open (fst (fst g)) path O_RDONLY (snd g) in
  let fd := fst (fst o) in
  fd < 0 ->
  read path offset buf n this m
    = ((to_int16 (posix_errno (world (snd o))), buf, n,
        mkBackend (Some (snd (fst o)))), snd o)
  /\ (trace (snd o) = trace m
      \/ trace (snd o) = trace m ++ [EvOpen path O_RDONLY fd])
  /\ (Forall well_formed (cache_of this) ->
        trace (snd o) = trace m ++ [EvOpen path O_RDONLY fd]
        /\ snd (fst o) = fst (fst g)
        /\ cache_of (out_object (read path offset buf n this m)) = cache_of this).
Proof.
  intros Hp g o fd Hneg.
  assert (read path offset buf n this m
          = ((to_int16 (posix_errno (world (snd o))), buf, n,
              mkBackend (Some (snd (fst o)))), snd o)) as Hread.
  { unfold read. rewrite (nonempty_path Hp). unfold bind at 1. fold g.
    destruct g as [[cache this1] m1] eqn:Eg. simpl in o.
    unfold bind at 1. fold o.
    destruct o as [[fd' cache1] m2] eqn:Eo. simpl in fd. subst fd.
    apply Z.ltb_lt in Hneg. rewrite Hneg. reflexivity. }
  destruct (getFDCache_machine this m) as [Hgt _]. fold g in Hgt.
  split; [exact Hread|]. split.
  - pose proof (Strategy_open_events (fst (fst g)) path O_RDONLY (snd g)) as He.
    fold o in He. fold fd in He. rewrite Hgt in He. exact He.
  - intros Hwf.
    assert (Forall well_formed (head_of (fst (fst g)))) as Hwf'
      by (unfold g; rewrite getFDCache_head; exact Hwf).
    destruct (Strategy_open_failure (fst (fst g)) path O_RDONLY (snd g) Hneg Hwf')
      as [Ht Hs].
    fold o in Ht, Hs. fold fd in Ht. rewrite Hgt in Ht.
    split; [exact Ht|]. split; [exact Hs|].
    rewrite Hread. unfold out_object. simpl. rewrite Hs.
    exact (getFDCache_head this m).
Qed.

Lemma to_int32_wide r : 2147483648 <= r mod 4294967296 -> to_int32 r < 0.
Proof.
  intros Hr. unfold to_int32, to_signed.
  change (2 * 2147483648) with 4294967296.
  rewrite <- Z.add_mod_idemp_l by lia.
  pose proof (Z.mod_pos_bound r 4294967296 ltac:(lia)) as Hb.
  set (q := r mod 4294967296) in *.
  replace (q + 2147483648) with ((q - 2147483648) + 1 * 4294967296) by lia.
  rewrite Z_mod_plus_full. rewrite Z.mod_small by lia. lia.
Qed.

(** X6.  The result of [lseek] is narrowed to [int] before it is tested.
    When bit 31 of the returned offset is set, as for a seek that succeeds at
    an offset from 2 GiB up to 4 GiB, [read] takes the seek for a failure:
    no [::read] is made, the returned length is 0, the buffer is untouched,
    and the status is whatever [errno] holds. *)
Theorem read_takes_wide_seek_result_for_failure (path : string) (offset : Z)
    (buf : list Z) (n : Z) (this : Backend) (m : Machine W) :
  path <> EmptyString ->
  let g := getFDCache this m in
  let o := Strategy_open (fst (fst g)) path O_RDONLY (snd g) in
  let fd := fst (fst o) in
  0 <= fd ->
  let sk := posix_lseek fd offset (world (snd o)) in
  2147483648 <= fst sk mod 4294967296 ->
  let e := posix_errno (snd sk) in
  let m3 := after_call (snd o) (snd sk) (EvLseek fd offset (fst sk)) in
  let rel := Strategy_close (snd (fst o)) fd (done_flag e 0 n) m3 in
  read path offset buf n this m
    = ((to_int16 e, buf, 0, mkBackend (Some (snd (fst rel)))), snd rel).
Proof.
  intros Hp g o fd Hfd sk Hwide e m3 rel.
  rewrite (read_run offset buf n this m Hp Hfd). fold g. fold o. fold fd.
  assert (to_int32 (fst (posix_lseek fd offset (world (snd o)))) < 0) as Hneg
    by (apply to_int32_wide; exact Hwide).
  rewrite (seek_and_read_seek_failed _ _ buf n _ Hneg). fold sk.
  subst rel m3 e. destruct sk as [r w]. reflexivity.
Qed.

End ReadPaths.

Section StrategyFacts.

Context {W : Type} `{Posix W}.

Lemma getInfo_frame path size flags this (m : Machine W) :
  snd (fst (getInfo path size flags this m)) = this.
Proof.
  unfold getInfo.
  destruct (0 <? Z.of_nat (String.length path)); [|reflexivity].
  run_monad. destruct (posix_stat path (world m)) as [[r sb] w']. simpl.
  destruct (r <? 0); reflexivity.
Qed.

Lemma read_keeps_strategy path offset buf n this s (m : Machine W) :
  fdcache_ this = Some s ->
  exists s', fdcache_ (out_object (read path offset buf n this m)) = Some s'
    /\ timer_of s' = timer_of s.
Proof.
  intros E. destruct path as [|a path'] eqn:Ep.
  - exists s. split; [exact E | reflexivity].
  - rewrite <- Ep.
    assert (path <> EmptyString) as Hp by (rewrite Ep; discriminate).
    destruct (read_object offset buf n this m Hp) as (s' & Hs & Ht).
    exists s'. split; [exact Hs|].
    rewrite (getFDCache_same _ m E) in Ht. exact Ht.
Qed.

Lemma serve_keeps_strategy c this s (m : Machine W) :
  fdcache_ this = Some s ->
  exists s', fdcache_ (fst (serve c this m)) = Some s'
    /\ timer_of s' = timer_of s.
Proof.
  intros E. destruct c as [path offset buf n|path size flags| |t|f]; simpl.
  - unfold bind.
    destruct (read_keeps_strategy path offset buf n this m E) as (s' & Hs & Ht).
    unfold out_object in Hs.
    destruct (read path offset buf n this m) as [[r this'] m']. simpl in *. eauto.
  - unfold bind.
    pose proof (@getInfo_frame path size flags this m) as Hf.
    destruct (getInfo path size flags this m) as [[r this'] m']. simpl in *.
    subst this'. eauto.
  - unfold Backend_timer. rewrite E. destruct s as [|c]; [simpl; eauto|].
    destruct (timer_period_ms c) eqn:Et; [|simpl; eauto].
    unfold bind. destruct (handleTimerEvent (head_ c) m) as [h m']. simpl.
    eexists. split; [reflexivity|]. simpl. congruence.
  - eauto.
  - eauto.
Qed.

(** X7.  Which strategy a back end uses is settled by the first
    [getFDCache] and never revised: over any sequence of [read] and
    [getInfo] calls, timer events, clock moves and changes of the world, a
    back end on the fallback stays on the fallback, and a back end with an
    [FDCache] keeps it, with the timer in the state and at the period it
    had. *)
Theorem strategy_is_chosen_once (cs : list Call) (this : Backend) (s : Strategy)
    (m : Machine W) :
  fdcache_ this = Some s ->
  exists s', fdcache_ (fst (serve_all cs this m)) = Some s'
    /\ timer_of s' = timer_of s
    /\ (s = Fallback -> s' = Fallback)
    /\ (forall c, s = Cached c ->
          exists c', s' = Cached c' /\ timer_period_ms c' = timer_period_ms c).
Proof.
  intros E.
  assert (exists s', fdcache_ (fst (serve_all cs this m)) = Some s'
                     /\ timer_of s' = timer_of s) as (s' & Hs & Ht).
  { revert this s m E. induction cs as [|c cs IH]; simpl; intros this s m E.
    - eauto.
    - unfold bind.
      destruct (serve_keeps_strategy c this m E) as (s1 & Hs1 & Ht1).
      destruct (serve c this m) as [this1 m1]. simpl in Hs1.
      destruct (IH this1 s1 m1 Hs1) as (s' & Hs & Ht).
      exists s'. split; [exact Hs | congruence]. }
  exists s'. split; [exact Hs|]. split; [exact Ht|]. split.
  - intros ->. destruct s'; [reflexivity|discriminate].
  - intros c ->. destruct s' as [|c']; [discriminate|].
    exists c'. split; [reflexivity|]. simpl in Ht. congruence.
Qed.

End StrategyFacts.

Section Release.

Context {W : Type} `{Posix W}.

Lemma cache_of_strategy s : cache_of (mkBackend (Some s)) = head_of s.
Proof. destruct s; reflexivity. Qed.

(** The seek-and-read block makes one [lseek] and at most one [::read], both
    on the descriptor it was given. *)
Lemma seek_and_read_trace fd offset buf n (m : Machine W) :
  exists r d, trace (snd (seek_and_read fd offset buf n m)) = trace m ++ d
    /\ (d = [EvLseek fd offset r] \/ exists l, d = [EvLseek fd offset r; EvRead fd n l]).
Proof.
  destruct (Z_lt_le_dec (to_int32 (fst (posix_lseek fd offset (world m)))) 0)
    as [Hneg|Hok].
  - rewrite (seek_and_read_seek_failed _ _ buf n _ Hneg).
    destruct (posix_lseek fd offset (world m)) as [r w]. simpl.
    exists r. eexists. split; [reflexivity|]. left. reflexivity.
  - rewrite (seek_and_read_seek_ok _ _ buf n _ Hok).
    destruct (posix_lseek fd offset (world m)) as [r w].
    destruct (posix_read fd n w) as [[l data] w']. simpl.
    exists r. eexists. split; [rewrite <- app_assoc; reflexivity|].
    right. exists l. reflexivity.
Qed.

(** What [close] through a strategy leaves of a descriptor: it is carried by
    a linked item afterwards or [::close] was called on it, and with [done]
    it is the latter. *)
Lemma Strategy_close_outcome s fd done (m : Machine W) :
  exists d, trace (snd (Strategy_close s fd done m)) = trace m ++ d
    /\ (In fd (map fd_ (head_of (snd (fst (Strategy_close s fd done m)))))
        \/ In fd (closed_fds d))
    /\ (done = true -> In fd (closed_fds d)).
Proof.
  destruct s as [|c]; simpl.
  - run_monad. destruct (posix_close fd (world m)) as [r w]. simpl.
    eexists. split; [reflexivity|]. simpl. auto.
  - unfold bind. destruct (find_fd fd (head_ c)) as [[i x]|] eqn:E.
    + rewrite (FDCache_close_found _ done _ m E). simpl.
      rewrite removeExpired_run. simpl. rewrite close_all_trace.
      eexists. split; [reflexivity|]. rewrite closed_fds_close_events.
      apply find_fd_Some in E as [Hn Hfd].
      destruct done.
      * pose proof (at_ptr_nth expire _ _ Hn) as Hn'.
        assert (In fd (map fd_ (filter (expired_at (clock m))
                                       (at_ptr i expire (head_ c))))) as Hin.
        { rewrite <- Hfd. change (fd_ x) with (fd_ (expire x)).
          apply in_map, filter_In.
          split; [eapply nth_error_In; eassumption | reflexivity]. }
        split; [right; exact Hin | intros _; exact Hin].
      * split; [|discriminate].
        apply nth_error_In in Hn.
        destruct (expired_at (clock m) x) eqn:Ex.
        -- right. rewrite <- Hfd. apply in_map, filter_In. auto.
        -- left. rewrite <- Hfd. apply in_map, filter_In.
           rewrite Ex. auto.
    + rewrite (FDCache_close_missing _ done _ m E).
      destruct (posix_close fd (world m)) as [r w]. simpl.
      eexists. split; [reflexivity|]. simpl. auto.
Qed.

(** X8.  On the fallback, [read] with a path whose [::open] succeeds is a
    plain sequence of system calls on one descriptor: [open], [lseek], at
    most one [read], and [close] of the descriptor just opened, whatever the
    outcome of the seek and of the read; nothing is kept between calls. *)
Theorem fallback_read_closes_what_it_opens (path : string) (offset : Z)
    (buf : list Z) (n : Z) (this : Backend) (m : Machine W) :
  path <> EmptyString ->
  fdcache_ this = Some Fallback ->
  let fd := fst (posix_open path O_RDONLY (world m)) in
  0 <= fd ->
  let res := read path offset buf n this m in
  out_object res = this
  /\ exists r d rc,
       trace (snd res) = trace m ++ EvOpen path O_RDONLY fd :: d ++ [EvClose fd rc]
       /\ (d = [EvLseek fd offset r]
           \/ exists l, d = [EvLseek fd offset r; EvRead fd n l]).
Proof.
  intros Hp E fd Hfd res.
  destruct this as [p]. simpl in E. subst p.
  assert (fst (fst (Strategy_open Fallback path O_RDONLY m)) = fd
          /\ snd (fst (Strategy_open Fallback path O_RDONLY m)) = Fallback
          /\ trace (snd (Strategy_open Fallback path O_RDONLY m))
             = trace m ++ [EvOpen path O_RDONLY fd]) as (Ho1 & Ho2 & Ho3).
  { subst fd. simpl. run_monad.
    destruct (posix_open path O_RDONLY (world m)). simpl. auto. }
  pose proof (read_run offset buf n (mkBackend (Some Fallback)) m Hp) as Hrun.
  cbv zeta in Hrun.
  rewrite (getFDCache_same (mkBackend (Some Fallback)) m eq_refl) in Hrun.
  cbn [fst snd] in Hrun. rewrite Ho1, Ho2 in Hrun. specialize (Hrun Hfd).
  subst res. rewrite Hrun. clear Hrun. unfold out_object. cbn [fst snd].
  set (m2 := snd (Strategy_open Fallback path O_RDONLY m)) in *.
  destruct (seek_and_read_trace fd offset buf n m2) as (r & d & Hio & Hd).
  destruct (seek_and_read fd offset buf n m2) as [[[rv len] b] m3].
  cbn [fst snd] in *.
  unfold Strategy_close. run_monad.
  destruct (posix_close fd (world m3)) as [rc w4]. simpl.
  split; [reflexivity|].
  exists r, d, rc. split; [|exact Hd].
  rewrite Hio, Ho3. rewrite <- !app_assoc. reflexivity.
Qed.

(** X9.  [read] never loses a descriptor it got from [open]: when it
    returns, the descriptor is carried by an item of the cache or [::close]
    has been called on it since the [open].  When the call ends the session
    (the release flag is true: an error or a short read), [::close] has been
    called on it. *)
Theorem read_keeps_or_closes_descriptor (path : string) (offset : Z)
    (buf : list Z) (n : Z) (this : Backend) (m : Machine W) :
  path <> EmptyString ->
  let g := getFDCache this m in
  let o := Strategy_open (fst (fst g)) path O_RDONLY (snd g) in
  let fd := fst (fst o) in
  0 <= fd ->
  let io := seek_and_read fd offset buf n (snd o) in
  let rv := fst (fst (fst io)) in
  let len := snd (fst (fst io)) in
  let res := read path offset buf n this m in
  exists d, trace (snd res) = trace (snd o) ++ d
    /\ (In fd (map fd_ (cache_of (out_object res))) \/ In fd (closed_fds d))
    /\ (done_flag rv len n = true -> In fd (closed_fds d)).
Proof.
  intros Hp g o fd Hfd io rv len res. subst res.
  rewrite (read_run offset buf n this m Hp Hfd).
  fold g. fold o. fold fd. fold io. fold rv. fold len.
  unfold out_object. simpl. rewrite cache_of_strategy.
  destruct (seek_and_read_trace fd offset buf n (snd o)) as (r & d1 & Hio & Hd1).
  fold io in Hio.
  destruct (Strategy_close_outcome (snd (fst o)) fd (done_flag rv len n) (snd io))
    as (d2 & Hrel & Hkeep & Hdone).
  assert (closed_fds d1 = []) as Hc1
    by (destruct Hd1 as [->|[l ->]]; reflexivity).
  exists (d1 ++ d2). rewrite closed_fds_app, Hc1. simpl.
  split; [rewrite Hrel, Hio, app_assoc; reflexivity|].
  split; assumption.
Qed.

End Release.

Section BackendInvariant.

Context {W : Type} `{Posix W}.

Lemma read_only_stamp (t : list Event) now x :
  read_only_item x -> read_only_item (set_access now x).
Proof. intros Hx. exact Hx. Qed.

Lemma read_only_new (t : list Event) (path : string) oflags fd now :
  oflags = O_RDONLY -> 0 <= fd ->
  read_only_item (mkItem now fd oflags (Some path)).
Proof. intros -> Hfd. repeat split. exact Hfd. Qed.

Lemma cache_ok_open path head (m : Machine W) :
  cache_ok head -> cache_ok (snd (fst (FDCache_open path O_RDONLY head m))).
Proof.
  intros [Hu Hq]. split; [apply unique_keys_open; exact Hu|].
  apply (@item_invariant_open _ _ (fun f => f = O_RDONLY)
           (fun _ it => read_only_item it)
           read_only_stamp (fun t d x Hx => Hx) read_only_new
           path O_RDONLY head m eq_refl Hq).
Qed.

Lemma cache_ok_sweep head (m : Machine W) :
  cache_ok head -> cache_ok (fst (removeExpired head m)).
Proof.
  intros [Hu Hq]. split; [apply unique_keys_removeExpired; exact Hu|].
  apply (@item_invariant_sweep _ _ (fun _ it => read_only_item it)
           (fun t d x Hx => Hx) head m Hq).
Qed.

Lemma cache_ok_close fd done head (m : Machine W) :
  cache_ok head -> cache_ok (snd (fst (FDCache_close fd done head m))).
Proof.
  intros [Hu Hq]. split; [apply unique_keys_close; exact Hu|].
  apply (@item_invariant_close _ _ (fun _ it => read_only_item it)
           read_only_stamp (fun t d x Hx => Hx) fd done head m Hq).
Qed.

Lemma cache_ok_Strategy_open s path (m : Machine W) :
  cache_ok (head_of s) ->
  cache_ok (head_of (snd (fst (Strategy_open s path O_RDONLY m)))).
Proof.
  destruct s as [|c]; simpl.
  - intros Hok. unfold bind. destruct (FDCacheBase_open path O_RDONLY m). exact Hok.
  - intros Hok. unfold bind. pose proof (cache_ok_open path m Hok) as Ho.
    destruct (FDCache_open path O_RDONLY (head_ c) m) as [[fd h] m']. exact Ho.
Qed.

Lemma cache_ok_Strategy_close s fd done (m : Machine W) :
  cache_ok (head_of s) ->
  cache_ok (head_of (snd (fst (Strategy_close s fd done m)))).
Proof.
  destruct s as [|c]; simpl.
  - intros Hok. unfold bind. destruct (FDCacheBase_close fd done m). exact Hok.
  - intros Hok. unfold bind. pose proof (cache_ok_close fd done m Hok) as Hc.
    destruct (FDCache_close fd done (head_ c) m) as [[r h] m']. exact Hc.
Qed.

Lemma cache_ok_read path offset buf n this (m : Machine W) :
  cache_ok (cache_of this) ->
  cache_ok (cache_of (out_object (read path offset buf n this m))).
Proof.
  intros Hok. unfold read, out_object.
  destruct (0 <? Z.of_nat (String.length path)); [|exact Hok].
  unfold bind at 1.
  rewrite <- (getFDCache_head this m) in Hok.
  destruct (getFDCache this m) as [[cache this1] m1]. cbn [fst snd] in *.
  unfold bind at 1.
  pose proof (cache_ok_Strategy_open cache path m1 Hok) as Ho.
  destruct (Strategy_open cache path O_RDONLY m1) as [[fd cache1] m2].
  cbn [fst snd] in *.
  destruct (fd <? 0).
  - unfold bind, sys_errno, ret. cbn [fst snd]. rewrite cache_of_strategy. exact Ho.
  - unfold bind at 1.
    destruct (seek_and_read fd offset buf n m2) as [[[rv len] b] m3].
    unfold bind at 1.
    pose proof (cache_ok_Strategy_close cache1 fd (done_flag rv len n) m3 Ho) as Hc.
    destruct (Strategy_close cache1 fd (done_flag rv len n) m3) as [[rc cache2] m4].
    unfold ret. cbn [fst snd] in *. rewrite cache_of_strategy. exact Hc.
Qed.

Lemma cache_ok_serve c this (m : Machine W) :
  cache_ok (cache_of this) -> cache_ok (cache_of (fst (serve c this m))).
Proof.
  intros Hok. destruct c as [path offset buf n|path size flags| |t|f]; simpl;
    try exact Hok.
  - unfold bind. pose proof (cache_ok_read path offset buf n this m Hok) as Hr.
    unfold out_object in Hr.
    destruct (read path offset buf n this m) as [[r this'] m']. exact Hr.
  - unfold bind. pose proof (@getInfo_frame _ _ path size flags this m) as Hf.
    destruct (getInfo path size flags this m) as [[r this'] m']. simpl in *.
    subst this'. exact Hok.
  - unfold Backend_timer. destruct (fdcache_ this) as [[|c]|] eqn:E; try exact Hok.
    destruct (timer_period_ms c); [|exact Hok].
    unfold bind, handleTimerEvent.
    assert (cache_ok (head_ c)) as Hc by (unfold cache_of in Hok; rewrite E in Hok; exact Hok).
    pose proof (cache_ok_sweep m Hc) as Hs.
    destruct (removeExpired (head_ c) m) as [h m']. exact Hs.
Qed.

Lemma unique_paths l :
  unique_keys l -> Forall read_only_item l -> NoDup (map path_ l).
Proof.
  unfold unique_keys. induction l as [|a l IH]; simpl; intros Hu Hq; [constructor|].
  inversion Hu as [|? ? Hnotin Hu']; subst.
  inversion Hq as [|? ? [_ Ha] Hq']; subst.
  constructor; [|apply IH; assumption].
  intros Hin. apply Hnotin.
  apply in_map_iff in Hin as (y & Hy & Hin).
  apply in_map_iff. exists y. split; [|exact Hin].
  eapply Forall_forall in Hq'; [|exact Hin]. destruct Hq' as [_ Hyf].
  unfold key. congruence.
Qed.

(** X10.  Over any sequence of [read] and [getInfo] calls, timer events,
    clock moves and changes of the world on a newly constructed back end,
    the cache holds at most one item per path: all its items are opened
    read-only, have a path copy and a descriptor that is not negative, and
    no two of them have the same path. *)
Theorem backend_caches_each_path_once (cs : list Call) (m : Machine W) :
  let l := cache_of (fst (serve_all cs Backend_new m)) in
  unique_keys l /\ Forall read_only_item l /\ NoDup (map path_ l).
Proof.
  intros l.
  assert (cache_ok l) as [Hu Hq].
  { subst l.
    assert (forall this (m : Machine W),
               cache_ok (cache_of this) ->
               cache_ok (cache_of (fst (serve_all cs this m)))) as Hall.
    { induction cs as [|c cs IH]; simpl; intros this m0 Hok; [exact Hok|].
      unfold bind. pose proof (cache_ok_serve c this m0 Hok) as Hs.
      destruct (serve c this m0) as [this1 m1]. apply IH. exact Hs. }
    apply Hall. split; constructor. }
  split; [exact Hu|]. split; [exact Hq|]. apply unique_paths; assumption.
Qed.

End BackendInvariant.

Section Lifespan.

Context {W : Type} `{Posix W}.

(** After an [open] that left an item for its key, that item bears the
    current clock reading and the returned descriptor. *)
Lemma open_leaves_stamped path oflags head (m : Machine W) :
  cached path oflags (snd (fst (FDCache_open path oflags head m))) ->
  exists x, In x (snd (fst (FDCache_open path oflags head m)))
    /\ equals x path oflags = true
    /\ last_access_ x = clock m
    /\ fd_ x = fst (fst (FDCache_open path oflags head m)).
Proof.
  intros Hc. destruct (find path oflags head) as [[i x]|] eqn:E.
  - rewrite (FDCache_open_hit _ _ _ m E) in *. simpl in *.
    apply find_Some in E as [Hn Ex].
    exists (set_access (clock m) x). split_all; try reflexivity.
    + eapply nth_error_In.
      apply (at_ptr_nth (fun _ => set_access (clock m) x) _ _ Hn).
    + exact Ex.
  - rewrite (FDCache_open_miss _ _ _ m E) in *.
    destruct (posix_open path oflags (world m)) as [fd w1].
    destruct (fd <? 0); [contradiction Hc; assumption|].
    destruct (heap_new w1) as [[|] w2]; [|contradiction Hc; assumption].
    destruct (heap_strdup path w2) as [[|] w3]; [|contradiction Hc; assumption].
    simpl. eexists. split; [left; reflexivity|].
    split_all; try reflexivity.
    unfold equals. simpl. rewrite Z.eqb_refl, String.eqb_refl. reflexivity.
Qed.

Lemma cached_In path oflags l x :
  In x l -> equals x path oflags = true -> cached path oflags l.
Proof.
  intros Hin Ex Hnone.
  rewrite (proj1 (find_None path oflags l) Hnone x Hin) in Ex. discriminate.
Qed.

(** X11.  An access opens a window of seven seconds: after an [open] at
    clock reading [c] that left an item for its key, a sweep at reading [t]
    keeps that item when [c] is not 0 and [t - c <= 7], and otherwise
    removes it and closes the descriptor that the [open] returned.  An item
    stamped while the clock reads 0 bears the sentinel and goes with the
    first sweep. *)
Theorem access_opens_seven_second_window (path : string) (oflags : Z)
    (head : list FDCacheItem) (m : Machine W) (t : Z) :
  unique_keys head ->
  let o := FDCache_open path oflags head m in
  cached path oflags (snd (fst o)) ->
  let m1 := at_time t (snd o) in
  let s := removeExpired (snd (fst o)) m1 in
  let d := close_events
             (map fd_ (filter (expired_at t) (snd (fst o)))) (world m1) in
  trace (snd s) = trace (snd o) ++ d
  /\ (clock m <> 0 -> t - clock m <= 7 ->
        cached path oflags (fst s)
        /\ (NoDup (map fd_ (snd (fst o))) -> ~ In (fst (fst o)) (closed_fds d)))
  /\ (clock m = 0 \/ t - clock m > 7 ->
        ~ cached path oflags (fst s) /\ In (fst (fst o)) (closed_fds d)).
Proof.
  intros Hu o Hc m1 s d.
  pose proof (unique_keys_open path oflags m Hu) as Hu1. fold o in Hu1.
  destruct (open_leaves_stamped head m Hc) as (x & Hin & Ex & Hla & Hfd).
  fold o in Hin, Hfd.
  subst s d. rewrite removeExpired_run. simpl.
  rewrite closed_fds_close_events.
  split; [rewrite close_all_trace; reflexivity|]. split.
  - intros Hc0 Hidle.
    assert (expired_at t x = false) as Hkeep.
    { unfold expired_at, MaxAgeSeconds. rewrite Hla.
      apply orb_false_iff. split; [apply Z.eqb_neq; lia|].
      destruct (t - clock m >? 7) eqn:Eg; [apply Z.gtb_gt in Eg; lia|reflexivity]. }
    assert (cached path oflags
              (filter (fun it => negb (expired_at t it)) (snd (fst o)))) as Hc2.
    { apply cached_In with (x := x); [|exact Ex].
      apply filter_In. rewrite Hkeep. auto. }
    split; [exact Hc2|]. intros Hnd Hcl.
    apply in_map_iff in Hcl as (y & Hy & Hyin).
    apply filter_In in Hyin as [Hyin Hyexp].
    assert (y = x) as ->.
    { eapply (NoDup_map_eq fd_); [exact Hnd | exact Hyin | exact Hin | congruence]. }
    congruence.
  - intros Hgone.
    assert (expired_at t x = true) as Hexp.
    { unfold expired_at, MaxAgeSeconds. rewrite Hla. apply orb_true_iff.
      destruct Hgone as [Hz|Hold]; [left; apply Z.eqb_eq; lia|].
      right. apply Z.gtb_gt. lia. }
    split.
    + intros Hc2. apply find_cached in Hc2 as (j & y & E).
      apply find_Some in E as [Hn Ey]. apply nth_error_In in Hn.
      apply filter_In in Hn as [Hy Hkeep].
      assert (y = x) as ->.
      { eapply (NoDup_map_eq key); [exact Hu1 | exact Hy | exact Hin |].
        apply equals_key in Ey. apply equals_key in Ex. congruence. }
      rewrite Hexp in Hkeep. discriminate.
    + rewrite <- Hfd. apply in_map, filter_In. auto.
Qed.

(** X12.  A release that does not end the session keeps a fresh item: when
    [close] is called without [done] on the descriptor of an item that is
    not stale, the call returns 0, the item stays linked as it was, and
    (descriptors being pairwise distinct) its descriptor is not among those
    the sweep closes; the next [open] of its key is then a hit. *)
Theorem partial_release_keeps_fresh_item (head : list FDCacheItem)
    (m : Machine W) (e : FDCacheItem) (i : nat) :
  find_fd (fd_ e) head = Some (i, e) ->
  ~ stale (clock m) e ->
  let r := FDCache_close (fd_ e) false head m in
  let d := close_events (map fd_ (filter (expired_at (clock m)) head)) (world m) in
  fst (fst r) = 0
  /\ In e (snd (fst r))
  /\ trace (snd r) = trace m ++ d
  /\ (NoDup (map fd_ head) -> ~ In (fd_ e) (closed_fds d))
  /\ (forall path oflags, equals e path oflags = true ->
        cached path oflags (snd (fst r))).
Proof.
  intros E Hfresh r d. subst r d.
  rewrite (FDCache_close_found _ false _ m E). simpl.
  rewrite removeExpired_run. simpl. rewrite closed_fds_close_events.
  apply find_fd_Some in E as [Hn _]. apply nth_error_In in Hn.
  assert (expired_at (clock m) e = false) as Hkeep.
  { destruct (expired_at (clock m) e) eqn:Ee; [|reflexivity].
    apply expired_at_stale in Ee. contradiction. }
  assert (In e (filter (fun it => negb (expired_at (clock m) it)) head)) as Hin
    by (apply filter_In; rewrite Hkeep; auto).
  split_all.
  - reflexivity.
  - exact Hin.
  - apply close_all_trace.
  - intros Hnd Hcl.
    apply in_map_iff in Hcl as (y & Hy & Hyin).
    apply filter_In in Hyin as [Hyin Hyexp].
    assert (y = e) as ->
      by (eapply (NoDup_map_eq fd_); [exact Hnd | exact Hyin | exact Hn | exact Hy]).
    congruence.
  - intros path oflags Ee. eapply cached_In; eassumption.
Qed.

End Lifespan.

(** * The further properties on concrete runs *)

Section FurtherWitnesses.

Import Scenario Tour.

Lemma read_reports_open_failure_witness :
  "/tmp/missing"%string <> EmptyString
  /\ out_status (read "/tmp/missing" 0 [7] 4 Backend_new (Sim.start 10 100))
     = Sim.ENOENT
  /\ fst (fst (fst (read "/tmp/missing" 0 [7] 4 Backend_new (Sim.start 10 100))))
     = (Sim.ENOENT, [7])
  /\ read_size (read "/tmp/missing" 0 [7] 4 Backend_new (Sim.start 10 100)) = 4
  /\ trace (snd (read "/tmp/missing" 0 [7] 4 Backend_new (Sim.start 10 100)))
     = [EvOpen "/tmp/missing" O_RDONLY (-1)]
  /\ cache_of (out_object (read "/tmp/missing" 0 [7] 4 Backend_new (Sim.start 10 100)))
     = [].
Proof.
  assert ("/tmp/missing"%string <> EmptyString) as Hp by discriminate.
  assert (-1 < 0) as Hneg by lia.
  pose proof (@read_reports_open_failure _ _ "/tmp/missing" 0 [7] 4 Backend_new
                (Sim.start 10 100) Hp Hneg) as T.
  cbv zeta in T. destruct T as (T1 & _ & T2).
  destruct (T2 (Forall_nil _)) as (T3 & _ & T4).
  split; [exact Hp|]. split_all.
  - rewrite T1. reflexivity.
  - rewrite T1. reflexivity.
  - rewrite T1. reflexivity.
  - rewrite T1. exact T3.
  - exact T4.
Defined.

Lemma read_takes_wide_seek_result_for_failure_witness :
  f <> EmptyString
  /\ fst (Sim.lseek 3 two_gib (snd (Sim.open f O_RDONLY (Sim.boot 8)))) = two_gib
  /\ fst (fst (read f two_gib [7] 4 Backend_new (Sim.start 10 100)))
     = (0, [7], 0)
  /\ trace (snd (read f two_gib [7] 4 Backend_new (Sim.start 10 100)))
     = [EvOpen f O_RDONLY 3; EvLseek 3 two_gib two_gib; EvClose 3 0].
Proof.
  assert (f <> EmptyString) as Hp by discriminate.
  assert (0 <= 3) as Hfd by lia.
  assert (2147483648 <= 2147483648 mod 4294967296) as Hwide
    by (vm_compute; discriminate).
  pose proof (@read_takes_wide_seek_result_for_failure _ _ f two_gib [7] 4
                Backend_new (Sim.start 10 100) Hp Hfd Hwide) as T.
  cbv zeta in T.
  split; [exact Hp|]. split; [reflexivity|]. split.
  - rewrite T. reflexivity.
  - rewrite T. reflexivity.
Defined.

Lemma strategy_is_chosen_once_witness :
  fdcache_ (out_object serving) = Some (Cached serving_cache)
  /\ (exists c', fdcache_ (fst (serve_all traffic (out_object serving) (snd serving)))
                 = Some (Cached c')
                 /\ timer_period_ms c' = Some 60000)
  /\ fdcache_ (fst (serve_all traffic on_fallback (Sim.start 0 100)))
     = Some Fallback.
Proof.
  assert (fdcache_ (out_object serving) = Some (Cached serving_cache)) as E
    by reflexivity.
  destruct (@strategy_is_chosen_once _ _ traffic (out_object serving)
              (Cached serving_cache) (snd serving) E) as (s' & Hs & _ & _ & Hc).
  destruct (@strategy_is_chosen_once _ _ traffic on_fallback Fallback
              (Sim.start 0 100) eq_refl) as (s2 & Hs2 & _ & Hf & _).
  split; [exact E|]. split.
  - destruct (Hc serving_cache eq_refl) as (c' & -> & Ht).
    exists c'. split; [exact Hs | exact Ht].
  - rewrite Hs2, (Hf eq_refl). reflexivity.
Defined.

Lemma fallback_read_closes_what_it_opens_witness :
  f <> EmptyString
  /\ fst (posix_open f O_RDONLY (Sim.boot 0)) = 3
  /\ out_object (read f 0 [] 4 on_fallback (Sim.start 0 100)) = on_fallback
  /\ closed_fds (trace (snd (read f 0 [] 4 on_fallback (Sim.start 0 100)))) = [3].
Proof.
  assert (f <> EmptyString) as Hp by discriminate.
  assert (0 <= 3) as Hfd by lia.
  pose proof (@fallback_read_closes_what_it_opens _ _ f 0 [] 4 on_fallback
                (Sim.start 0 100) Hp eq_refl Hfd) as T.
  cbv zeta in T. destruct T as (T1 & r & d & rc & Ht & Hd).
  split; [exact Hp|]. split; [reflexivity|]. split; [exact T1|].
  rewrite Ht. destruct Hd as [->|[l ->]]; reflexivity.
Defined.

Lemma read_keeps_or_closes_descriptor_witness :
  f <> EmptyString
  /\ done_flag 0 2 4 = true
  /\ (exists d, trace (snd (read f 8 [] 4 Backend_new (Sim.start 10 100)))
                = [EvOpen f O_RDONLY 3] ++ d
                /\ In 3 (closed_fds d))
  /\ (exists d, trace (snd (read f 0 [] 4 Backend_new (Sim.start 10 100)))
                = [EvOpen f O_RDONLY 3] ++ d
                /\ (In 3 (map fd_ (cache_of (out_object serving)))
                    \/ In 3 (closed_fds d))).
Proof.
  assert (f <> EmptyString) as Hp by discriminate.
  assert (0 <= 3) as Hfd by lia.
  pose proof (@read_keeps_or_closes_descriptor _ _ f 8 [] 4 Backend_new
                (Sim.start 10 100) Hp Hfd) as T.
  pose proof (@read_keeps_or_closes_descriptor _ _ f 0 [] 4 Backend_new
                (Sim.start 10 100) Hp Hfd) as T'.
  cbv zeta in T, T'.
  destruct T as (d & Ht & _ & Hdone). destruct T' as (d' & Ht' & Hkeep & _).
  split; [exact Hp|]. split; [reflexivity|]. split.
  - exists d. split; [exact Ht | exact (Hdone eq_refl)].
  - exists d'. split; [exact Ht' | exact Hkeep].
Defined.

Lemma access_opens_seven_second_window_witness :
  unique_keys []
  /\ cached f O_RDONLY (snd (fst first_open))
  /\ clock (Sim.start 10 100) = 100
  /\ cached f O_RDONLY
       (fst (removeExpired (snd (fst first_open)) (at_time 107 (snd first_open))))
  /\ ~ cached f O_RDONLY
       (fst (removeExpired (snd (fst first_open)) (at_time 108 (snd first_open))))
  /\ In 3 (closed_fds
             (close_events
                (map fd_ (filter (expired_at 108) (snd (fst first_open))))
                (world (at_time 108 (snd first_open))))).
Proof.
  assert (unique_keys []) as Hu by constructor.
  assert (cached f O_RDONLY (snd (fst first_open))) as Hc by by_compute.
  pose proof (@access_opens_seven_second_window _ _ f O_RDONLY []
                (Sim.start 10 100) 107 Hu Hc) as T.
  pose proof (@access_opens_seven_second_window _ _ f O_RDONLY []
                (Sim.start 10 100) 108 Hu Hc) as T'.
  cbv zeta in T, T'. destruct T as (_ & T & _). destruct T' as (_ & _ & T').
  assert (100 <> 0 /\ 107 - 100 <= 7 /\ 108 - 100 > 7) as (H0 & H7 & H8) by lia.
  destruct (T H0 H7) as [Tk _]. destruct (T' (or_intror H8)) as [Tg Tc].
  split; [exact Hu|]. split; [exact Hc|]. split; [reflexivity|].
  split; [exact Tk|]. split; [exact Tg | exact Tc].
Defined.

Lemma partial_release_keeps_fresh_item_witness :
  find_fd 3 head_fg = Some (1%nat, item_f)
  /\ ~ stale (clock m_fg) item_f
  /\ NoDup (map fd_ head_fg)
  /\ fst (fst (FDCache_close 3 false head_fg m_fg)) = 0
  /\ In item_f (snd (fst (FDCache_close 3 false head_fg m_fg)))
  /\ ~ In 3 (closed_fds
               (close_events
                  (map fd_ (filter (expired_at (clock m_fg)) head_fg)) (world m_fg)))
  /\ cached f O_RDONLY (snd (fst (FDCache_close 3 false head_fg m_fg))).
Proof.
  assert (find_fd (fd_ item_f) head_fg = Some (1%nat, item_f)) as E by reflexivity.
  assert (~ stale (clock m_fg) item_f) as Hfresh.
  { unfold stale. change (clock m_fg) with 100. simpl. lia. }
  assert (NoDup (map fd_ head_fg)) as Hnd.
  { vm_compute. repeat constructor; simpl; intuition discriminate. }
  pose proof (@partial_release_keeps_fresh_item _ _ head_fg m_fg item_f 1%nat
                E Hfresh) as T.
  cbv zeta in T. change (fd_ item_f) with 3 in T.
  destruct T as (T1 & T2 & _ & T3 & T4).
  split; [exact E|]. split; [exact Hfresh|]. split; [exact Hnd|].
  split; [exact T1|]. split; [exact T2|]. split; [exact (T3 Hnd)|].
  exact (T4 f O_RDONLY eq_refl).
Defined.

End FurtherWitnesses.
